(** * mirror_playlists.py: playlist rewriting, icon job set and download phase

    A shallow embedding of [src/mirror_playlists.py].  Python [str] values are
    lists of characters; the insertion-ordered [dict] [original_icons] is an
    association list that keeps the position of a key on update;
    [pathlib.Path] values are kept in parsed form (root and components);
    exceptions are results of a small error monad.  Everything the script
    obtains from outside (the playlist responses, the outcome of each call
    made for an icon, the value of the alarm flag whenever it is read, the
    order in which the thread pool completes the batches) is collected in
    a record [World] and passed to the functions that consume it.  Console
    output is left out.  [main] takes the creation of the directories and
    the writing of a playlist file to succeed; [main_full] has the outcomes
    of both explicit, in a record [Disk]. *)

From Stdlib Require Import Ascii String List Arith Lia Bool Permutation.
Import ListNotations.

Set Implicit Arguments.

(** ** Python [str] operations used by the script *)

Module Str.

Definition str := list ascii.

Definition lit (s : string) : str := list_ascii_of_string s.

(** The double-quote character (code 34). *)
Definition dquote : ascii := ascii_of_nat 34.

Fixpoint eqb (a b : str) : bool :=
  match a, b with
  | [], [] => true
  | x :: a', y :: b' => Ascii.eqb x y && eqb a' b'
  | _, _ => false
  end.

(** [s.startswith(p)] *)
Fixpoint startswith (p s : str) : bool :=
  match p, s with
  | [], _ => true
  | _ :: _, [] => false
  | x :: p', y :: s' => Ascii.eqb x y && startswith p' s'
  end.

(** [p in s] *)
Fixpoint contains (p s : str) : bool :=
  startswith p s ||
  match s with
  | [] => false
  | _ :: s' => contains p s'
  end.

(** Left-to-right scan of [s.replace(old, new)] for a non-empty [old]:
    [skip] counts the characters of an occurrence that was just replaced
    and are still to be dropped, so occurrences never overlap. *)
Fixpoint replace_from (old new : str) (skip : nat) (s : str) : str :=
  match s with
  | [] => []
  | c :: s' =>
      match skip with
      | S k => replace_from old new k s'
      | O =>
          if startswith old s
          then new ++ replace_from old new (length old - 1) s'
          else c :: replace_from old new 0 s'
      end
  end.

(** [s.replace(old, new)]: every non-overlapping occurrence, leftmost
    first; an empty [old] matches before every character and at the end. *)
Definition replace (old new s : str) : str :=
  match old with
  | [] => new ++ flat_map (fun c => c :: new) s
  | _ :: _ => replace_from old new 0 s
  end.

(** [sep.join(xs)] *)
Fixpoint join (sep : str) (xs : list str) : str :=
  match xs with
  | [] => []
  | [x] => x
  | x :: xs' => x ++ sep ++ join sep xs'
  end.

(** [s.split(sep)] for a one-character separator. *)
Fixpoint split (sep : ascii) (s : str) : list str :=
  match s with
  | [] => [[]]
  | c :: s' =>
      if Ascii.eqb c sep then [] :: split sep s'
      else match split sep s' with
           | [] => [[c]]
           | w :: ws => (c :: w) :: ws
           end
  end.

(** Remove a literal prefix, if present. *)
Fixpoint strip_prefix (p s : str) : option str :=
  match p, s with
  | [], _ => Some s
  | _ :: _, [] => None
  | x :: p', y :: s' => if Ascii.eqb x y then strip_prefix p' s' else None
  end.

(** Longest prefix made of characters other than the double quote, and
    the rest. *)
Fixpoint span_not_quote (s : str) : str * str :=
  match s with
  | [] => ([], [])
  | c :: s' =>
      if Ascii.eqb c dquote then ([], s)
      else let (a, b) := span_not_quote s' in (c :: a, b)
  end.

End Str.

Import Str.

(** ** The regular expression of line 83

    Writing Q for the double-quote character, the pattern given to
    [re.search] is [tvg-logo=Q(https?://epg\.one/img/([^Q]+))Q]. *)

Module Re.

Definition attr : str := lit "tvg-logo=" ++ [dquote].
Definition host_img : str := lit "://epg.one/img/".

(** [://epg\.one/img/([^Q]+)Q] after the scheme [scheme] has been read.
    [[^Q]+] is greedy; giving characters back cannot help, because the
    character that would then have to be Q is one that [[^Q]] accepted. *)
Definition match_after_scheme (scheme s : str) : option (str * str) :=
  match strip_prefix host_img s with
  | None => None
  | Some s' =>
      match span_not_quote s' with
      | ((_ :: _) as path, _ :: _) => Some (scheme ++ host_img ++ path, path)
      | _ => None
      end
  end.

(** The pattern anchored at the head of [s]; the result is
    [(group 1, group 2)].  [s?] first tries to take the [s] and falls back
    to the empty match. *)
Definition match_here (s : str) : option (str * str) :=
  match strip_prefix attr s with
  | None => None
  | Some s1 =>
      match strip_prefix (lit "http") s1 with
      | None => None
      | Some s2 =>
          match strip_prefix (lit "s") s2 with
          | Some s3 =>
              match match_after_scheme (lit "https") s3 with
              | Some r => Some r
              | None => match_after_scheme (lit "http") s2
              end
          | None => match_after_scheme (lit "http") s2
          end
      end
  end.

(** [re.search]: the match at the leftmost position that has one. *)
Fixpoint search (s : str) : option (str * str) :=
  match match_here s with
  | Some r => Some r
  | None =>
      match s with
      | [] => None
      | _ :: s' => search s'
      end
  end.

End Re.

(** ** [pathlib.Path] on a POSIX system *)

Module PathLib.

Definition slash : ascii := ascii_of_nat 47.

(** A path in parsed form: [root] is empty, one slash or two slashes;
    [tail] holds the components. *)
Record Path := { root : str; tail : list str }.

(** [posixpath.splitroot] *)
Definition splitroot (p : str) : str * str :=
  match p with
  | c1 :: p1 =>
      if Ascii.eqb c1 slash then
        match p1 with
        | c2 :: p2 =>
            if Ascii.eqb c2 slash then
              match p2 with
              | c3 :: _ =>
                  if Ascii.eqb c3 slash then ([slash], p1)
                  else ([slash; slash], p2)
              | [] => ([slash; slash], p2)
              end
            else ([slash], p1)
        | [] => ([slash], p1)
        end
      else ([], p)
  | [] => ([], p)
  end.

(** Components that survive parsing: neither empty nor a single dot. *)
Definition keep_part (x : str) : bool :=
  negb (Str.eqb x []) && negb (Str.eqb x (lit ".")).

Definition parse (s : str) : Path :=
  let (r, rel) := splitroot s in
  {| root := r; tail := filter keep_part (split slash rel) |}.

(** [str(p)] *)
Definition to_str (p : Path) : str :=
  match root p ++ join [slash] (tail p) with
  | [] => lit "."
  | s => s
  end.

(** [posixpath.join(a, b)] *)
Definition posix_join (a b : str) : str :=
  if startswith [slash] b then b
  else match rev a with
       | [] => a ++ b
       | c :: _ => if Ascii.eqb c slash then a ++ b else a ++ slash :: b
       end.

(** [p / key]: an absolute [key] discards [p]. *)
Definition div (p : Path) (key : str) : Path :=
  parse (posix_join (to_str p) key).

End PathLib.

Import PathLib.

(** ** The insertion-ordered dictionary [original_icons] *)

Module Dict.

Section WithValue.
Variable V : Type.

Definition dict := list (str * V).

(** [d[k] = v]: a key already present keeps its position and gets the new
    value; a new key goes to the end. *)
Fixpoint set (d : dict) (k : str) (v : V) : dict :=
  match d with
  | [] => [(k, v)]
  | (k', v') :: d' =>
      if Str.eqb k k' then (k', v) :: d' else (k', v') :: set d' k v
  end.

Fixpoint get (d : dict) (k : str) : option V :=
  match d with
  | [] => None
  | (k', v') :: d' => if Str.eqb k k' then Some v' else get d' k
  end.

(** [list(d.items())] *)
Definition items (d : dict) : list (str * V) := d.

Definition keys (d : dict) : list str := map fst d.

End WithValue.

End Dict.

(** ** Module constants *)

Definition PLAYLIST_URLS : list str :=
  [ lit "http://epg.one/edem_epg_ico.m3u8";
    lit "http://epg.one/edem_epg_ico2.m3u8";
    lit "http://epg.one/edem_epg_ico3.m3u8" ].

Definition OUTPUT_DIR : str := lit "playlists".
Definition ICONS_SQR_DIR : Path := parse (lit "img").
Definition ICONS_RECT_DIR : Path := parse (lit "img2").
Definition NEW_ICONS_BASE_URL_SQR : str :=
  lit "https://raw.githubusercontent.com/KocourKuba/epgone_mirror/master/img/".

(** ** The line loop of [main] (lines 78-96) *)

Abbreviation Job := (str * Path)%type.

Record Scan := {
  icons : Dict.dict Path;
  replacements_count : nat;
  not_replaced_count : nat;
  processed_lines : list str
}.

(** [old_icon_url.replace("/img/", "/img2/")] *)
Definition rect_url (old_icon_url : str) : str :=
  replace (lit "/img/") (lit "/img2/") old_icon_url.

(** One iteration of [for line in playlist_lines]. *)
Definition scan_line (st : Scan) (line : str) : Scan :=
  if contains Re.attr line then
    match Re.search line with
    | Some (old_icon_url, icon_path) =>
        let icons1 :=
          Dict.set (icons st) old_icon_url (div ICONS_SQR_DIR icon_path) in
        let icons2 :=
          Dict.set icons1 (rect_url old_icon_url)
                   (div ICONS_RECT_DIR icon_path) in
        let new_icon_url := NEW_ICONS_BASE_URL_SQR ++ icon_path in
        {| icons := icons2;
           replacements_count := replacements_count st + 1;
           not_replaced_count := not_replaced_count st;
           processed_lines :=
             processed_lines st ++ [replace old_icon_url new_icon_url line] |}
    | None =>
        {| icons := icons st;
           replacements_count := replacements_count st;
           not_replaced_count := not_replaced_count st + 1;
           processed_lines := processed_lines st ++ [line] |}
    end
  else
    {| icons := icons st;
       replacements_count := replacements_count st;
       not_replaced_count := not_replaced_count st;
       processed_lines := processed_lines st ++ [line] |}.

Definition scan_lines (original_icons : Dict.dict Path)
    (playlist_lines : list str) : Scan :=
  fold_left scan_line playlist_lines
    {| icons := original_icons; replacements_count := 0;
       not_replaced_count := 0; processed_lines := [] |}.

(** ** Exceptions *)

Inductive Exn := ValueError | RequestException | OSError | TimeoutError.

Inductive Exc (A : Type) :=
| Returned (a : A)
| Raised (e : Exn).

Arguments Raised {A} e.

Definition bind {A B : Type} (m : Exc A) (k : A -> Exc B) : Exc B :=
  match m with
  | Returned a => k a
  | Raised e => Raised e
  end.

(** [try: body / except: handler] with a bare [except]. *)
Definition try_except {A : Type} (body : Exc A) (handler : Exn -> Exc A)
  : Exc A :=
  match body with
  | Returned a => Returned a
  | Raised e => handler e
  end.

Notation "x <- m ;; k" := (bind m (fun x => k))
  (at level 61, m at next level, right associativity).
Notation "m ;;; k" := (bind m (fun _ => k))
  (at level 61, right associativity).

(** ** The playlist loop of [main] (lines 67-113) *)

(** What [requests.get(url, timeout=...)] does for a playlist: it raises a
    [RequestException] (connection error, timeout, ...) or returns a
    response, given here by its status code and by
    [response.text.splitlines()]. *)
Inductive FetchOutcome :=
| GetRaises
| Response (status_code : nat) (playlist_lines : list str).

(** [response.raise_for_status()] *)
Definition raise_for_status (status_code : nat) : Exc unit :=
  if (400 <=? status_code) && (status_code <? 600)
  then Raised RequestException
  else Returned tt.

Definition fetch_lines (o : FetchOutcome) : Exc (list str) :=
  match o with
  | GetRaises => Raised RequestException
  | Response status_code playlist_lines =>
      raise_for_status status_code ;;; Returned playlist_lines
  end.

(** [os.path.basename(urlparse(url).path)] for an [http] or [https] URL
    of the shape [scheme://netloc/path;params?query#fragment]: query and
    fragment are cut off first, then the parameters of the last path
    segment; the name is the text after the last slash of what is left. *)
Fixpoint after_scheme (s : str) : str :=
  match s with
  | [] => []
  | c :: s' =>
      if startswith (lit "://") s then skipn 2 s' else after_scheme s'
  end.

Definition is_path_end (c : ascii) : bool :=
  Ascii.eqb c (ascii_of_nat 63) || Ascii.eqb c (ascii_of_nat 35).

Fixpoint take_until (stop : ascii -> bool) (s : str) : str :=
  match s with
  | [] => []
  | c :: s' => if stop c then [] else c :: take_until stop s'
  end.

Fixpoint drop_until (stop : ascii -> bool) (s : str) : str :=
  match s with
  | [] => []
  | c :: s' => if stop c then s else drop_until stop s'
  end.

(** [_splitparams]: the last path segment is cut at its first
    semicolon. *)
Definition split_params (path : str) : str :=
  match rev (split slash path) with
  | [] => path
  | segment :: before =>
      join [slash]
        (rev (take_until (fun c => Ascii.eqb c (ascii_of_nat 59)) segment
              :: before))
  end.

Definition url_path (url : str) : str :=
  split_params
    (take_until is_path_end
       (drop_until (fun c => Ascii.eqb c slash || is_path_end c)
          (after_scheme url))).

Definition basename (path : str) : str := last (split slash path) [].

Definition url_filename (url : str) : str := basename (url_path url).

Definition newline : str := [ascii_of_nat 10].

Record MainState := {
  original_icons : Dict.dict Path;
  written : list (str * str);
  processed_files : list str
}.

(** One iteration of [for url in PLAYLIST_URLS].  Both calls that can
    raise a [RequestException] come before the first line is scanned, so a
    failed source leaves [original_icons] as it was. *)
Definition process_playlist (fetch : str -> FetchOutcome) (st : MainState)
    (url : str) : MainState :=
  let filename := url_filename url in
  match fetch_lines (fetch url) with
  | Returned playlist_lines =>
      let sc := scan_lines (original_icons st) playlist_lines in
      let playlist_content := join newline (processed_lines sc) in
      {| original_icons := icons sc;
         written := written st ++ [(filename, playlist_content)];
         processed_files := processed_files st ++ [filename] |}
  | Raised _ => st
  end.

Definition process_playlists (fetch : str -> FetchOutcome)
    (urls : list str) : MainState :=
  fold_left (process_playlist fetch) urls
    {| original_icons := []; written := []; processed_files := [] |}.

(** ** Batches (lines 140-142) *)

(** [l[i:j]] for [i <= j] *)
Definition slice {A : Type} (l : list A) (i j : nat) : list A :=
  firstn (j - i) (skipn i l).

(** [range(0, stop, step)] for a positive [step] *)
Definition range_step (stop step : nat) : list nat :=
  map (fun k => k * step) (seq 0 ((stop + step - 1) / step)).

Definition make_batches {A : Type} (batch_size : nat) (items : list A)
  : list (list A) :=
  map (fun i => slice items i (i + batch_size))
      (range_step (length items) batch_size).

Definition batch_size : nat := 50.

(** ** [download_icon_batch] (lines 121-136) *)

(** What the operating system and the network do for one icon job: the
    outcome of each call in the body of the [try]. *)
Record IconIO := {
  mkdir_parents : Exc unit;
  session_get : Exc nat;
  open_file : Exc unit;
  write_chunks : Exc unit
}.

(** One step of the [as_completed] iterator: it hands over the finished
    future of a batch (and [is_timeout] is the flag as the loop body then
    reads it), or its wait runs out. *)
Inductive HarvestEvent :=
| Yields (batch_idx : nat) (is_timeout : bool)
| WaitTimeout.

(** Everything outside the script.
    - [fetch_playlist url]: the outcome of the playlist request;
    - [is_timeout_at job]: the value of [timeout_handler.is_timeout] read
      at line 124 in the iteration for [job];
    - [icon_io job]: the outcome of the calls made for [job];
    - [harvest]: what the [as_completed] iterator does, step by step. *)
Record World := {
  fetch_playlist : str -> FetchOutcome;
  is_timeout_at : Job -> bool;
  icon_io : Job -> IconIO;
  harvest : list HarvestEvent
}.

(** The body of the [try] (lines 127-132). *)
Definition save_icon (io : IconIO) : Exc unit :=
  mkdir_parents io ;;;
  status_code <- session_get io ;;
  raise_for_status status_code ;;;
  open_file io ;;;
  write_chunks io.

(** The [for] loop of [download_icon_batch], from the current value of
    [success]. *)
Fixpoint batch_loop (w : World) (batch_items : list Job) (success : nat)
  : Exc nat :=
  match batch_items with
  | [] => Returned success
  | job :: rest =>
      if is_timeout_at w job then Returned success
      else
        success' <- try_except
                      (save_icon (icon_io w job) ;;; Returned (success + 1))
                      (fun _ => Returned success) ;;
        batch_loop w rest success'
  end.

Definition download_icon_batch (w : World) (batch_items : list Job)
  : Exc nat :=
  batch_loop w batch_items 0.

(** ** [run_download_worker] (lines 138-180) *)

(** How the function is left: the value of the local [total_downloaded]
    at that moment, and whether an exception is propagating. *)
Record RunEnd := { total_downloaded : nat; outcome : Exc unit }.

(** The loop [for future in as_completed(future_to_batch, timeout=...)].
    The iterator is advanced in the [for] header, outside the [try]:
    - no event left: the iterator is exhausted and the loop ends;
    - [WaitTimeout]: the iterator raises [TimeoutError];
    - [Yields i flag]: it hands over the finished future of batch [i],
      and [flag] is [timeout_handler.is_timeout] as read at line 164.
    [future_result i] is what [future.result(timeout=60)] does for the
    finished future of batch [i]. *)
Fixpoint harvest_loop (future_result : nat -> Exc nat)
    (events : list HarvestEvent) (total : nat) : RunEnd :=
  match events with
  | [] => {| total_downloaded := total; outcome := Returned tt |}
  | WaitTimeout :: _ =>
      {| total_downloaded := total; outcome := Raised TimeoutError |}
  | Yields batch_idx is_timeout :: events' =>
      if is_timeout
      then {| total_downloaded := total; outcome := Returned tt |}
      else
        match future_result batch_idx with
        | Returned successful =>
            harvest_loop future_result events' (total + successful)
        | Raised TimeoutError => harvest_loop future_result events' total
        | Raised _ => harvest_loop future_result events' total
        end
  end.

(** The context managers around the loop ([timeout_context], the session
    and the executor) run their exit code and let an exception through. *)
Definition run_download_worker (w : World) (icons : Dict.dict Path)
  : RunEnd :=
  let items := Dict.items icons in
  let batches := make_batches batch_size items in
  let future_result i := download_icon_batch w (nth i batches []) in
  harvest_loop future_result (harvest w) 0.

(** ** [main] *)

Record MainEnd := {
  playlists : MainState;
  download : option RunEnd;
  exit : Exc unit
}.

(** [not repo_name] for the result of [os.getenv]. *)
Definition not_set (repo_name : option str) : bool :=
  match repo_name with
  | None => true
  | Some [] => true
  | Some (_ :: _) => false
  end.

Definition main (repo_name : option str) (w : World) : MainEnd :=
  if not_set repo_name then
    {| playlists :=
         {| original_icons := []; written := []; processed_files := [] |};
       download := None;
       exit := Raised ValueError |}
  else
    let st := process_playlists (fetch_playlist w) PLAYLIST_URLS in
    match original_icons st with
    | [] => {| playlists := st; download := None; exit := Returned tt |}
    | _ :: _ =>
        let r := run_download_worker w (original_icons st) in
        {| playlists := st; download := Some r; exit := outcome r |}
    end.

(** ** [main] with the local file system

    [main] above takes the three [mkdir] calls of lines 58-64 and the
    [write_text] of line 108 to succeed.  [main_full] is the same function
    with their outcomes made explicit: the [mkdir] calls stand outside
    every [try], and in the playlist loop only a [RequestException] is
    handled, so any other exception of [write_text] leaves [main]. *)

(** What the local file system does: [mkdir dir] is the outcome of
    [Path(dir).mkdir(exist_ok=True)], [write_text name content] that of
    [(output_path / name).write_text(content, encoding='utf-8')]. *)
Record Disk := {
  mkdir : str -> Exc unit;
  write_text : str -> str -> Exc unit
}.

(** Lines 57-65. *)
Definition make_directories (disk : Disk) : Exc unit :=
  mkdir disk OUTPUT_DIR ;;;
  mkdir disk (to_str ICONS_SQR_DIR) ;;;
  mkdir disk (to_str ICONS_RECT_DIR).

(** One iteration of [for url in PLAYLIST_URLS] (lines 69-113): the state
    it leaves and whether an exception leaves the loop.  The lines are
    scanned, and [original_icons] updated, before the file is written. *)
Definition process_playlist_io (disk : Disk) (fetch : str -> FetchOutcome)
    (st : MainState) (url : str) : MainState * Exc unit :=
  let filename := url_filename url in
  match fetch_lines (fetch url) with
  | Returned playlist_lines =>
      let sc := scan_lines (original_icons st) playlist_lines in
      let playlist_content := join newline (processed_lines sc) in
      let scanned :=
        {| original_icons := icons sc; written := written st;
           processed_files := processed_files st |} in
      match write_text disk filename playlist_content with
      | Returned _ =>
          ({| original_icons := icons sc;
              written := written st ++ [(filename, playlist_content)];
              processed_files := processed_files st ++ [filename] |},
           Returned tt)
      | Raised RequestException => (scanned, Returned tt)
      | Raised e => (scanned, Raised e)
      end
  | Raised RequestException => (st, Returned tt)
  | Raised e => (st, Raised e)
  end.

Fixpoint process_playlists_io (disk : Disk) (fetch : str -> FetchOutcome)
    (urls : list str) (st : MainState) : MainState * Exc unit :=
  match urls with
  | [] => (st, Returned tt)
  | url :: rest =>
      match process_playlist_io disk fetch st url with
      | (st', Returned _) => process_playlists_io disk fetch rest st'
      | (st', Raised e) => (st', Raised e)
      end
  end.

Definition main_full (repo_name : option str) (disk : Disk) (w : World)
  : MainEnd :=
  let nothing :=
    {| original_icons := []; written := []; processed_files := [] |} in
  if not_set repo_name then
    {| playlists := nothing; download := None; exit := Raised ValueError |}
  else
    match make_directories disk with
    | Raised e => {| playlists := nothing; download := None; exit := Raised e |}
    | Returned _ =>
        match process_playlists_io disk (fetch_playlist w) PLAYLIST_URLS
                                   nothing with
        | (st, Raised e) =>
            {| playlists := st; download := None; exit := Raised e |}
        | (st, Returned _) =>
            match original_icons st with
            | [] =>
                {| playlists := st; download := None; exit := Returned tt |}
            | _ :: _ =>
                let r := run_download_worker w (original_icons st) in
                {| playlists := st; download := Some r; exit := outcome r |}
            end
        end
    end.

(** ** Notions used in the statements *)

(** The two schemes that [https?] accepts. *)
Definition is_scheme (scheme : str) : Prop :=
  scheme = lit "http" \/ scheme = lit "https".

(** The state in which the line loop starts on an empty dictionary. *)
Definition empty_scan : Scan :=
  {| icons := []; replacements_count := 0; not_replaced_count := 0;
     processed_lines := [] |}.

(** The jobs of a dictionary with their destinations printed by [str]. *)
Definition show_jobs (d : Dict.dict Path) : list (str * str) :=
  map (fun kv => (fst kv, to_str (snd kv))) d.

(** The download of [job] succeeds: no call in the [try] raises. *)
Definition fetch_ok (w : World) (job : Job) : bool :=
  match save_icon (icon_io w job) with
  | Returned _ => true
  | Raised _ => false
  end.

(** Some call in the body of the [try] raises. *)
Definition io_fails (io : IconIO) : Prop :=
  (exists e, mkdir_parents io = Raised e) \/
  (exists e, session_get io = Raised e) \/
  (exists c, session_get io = Returned c /\ 400 <= c < 600) \/
  (exists e, open_file io = Raised e) \/
  (exists e, write_chunks io = Raised e).

(** Batches whose future the iterator hands over, in order. *)
Definition yielded (events : list HarvestEvent) : list nat :=
  flat_map (fun ev => match ev with
                      | Yields batch_idx _ => [batch_idx]
                      | WaitTimeout => []
                      end) events.

(** The request for a playlist fails: [requests.get] raises, or the
    status code makes [raise_for_status] raise. *)
Definition fetch_fails (o : FetchOutcome) : Prop :=
  o = GetRaises \/
  exists status_code playlist_lines,
    o = Response status_code playlist_lines /\ 400 <= status_code < 600.

(** ** Concrete lines, jobs and worlds *)

Definition line_plain : str := lit "#EXTM3U".

Definition line_x : str :=
  Re.attr ++ lit "http://epg.one/img/x.png" ++ [dquote].

Definition line_external : str :=
  Re.attr ++ lit "https://cdn.other.example/logo.png" ++ [dquote].

Definition line_nested : str :=
  Re.attr ++ lit "http://epg.one/img/a/img/b.png" ++ [dquote].

Definition line_nested2 : str :=
  Re.attr ++ lit "http://epg.one/img/a/img2/b.png" ++ [dquote].

Definition icons_x : Dict.dict Path := icons (scan_line empty_scan line_x).

Definition job_sqr : Job :=
  (lit "http://epg.one/img/x.png", div ICONS_SQR_DIR (lit "x.png")).

Definition job_rect : Job :=
  (lit "http://epg.one/img2/x.png", div ICONS_RECT_DIR (lit "x.png")).

Definition jobs_120 : list Job := repeat job_sqr 120.

Definition repo : str := lit "KocourKuba/epgone_mirror".

Definition ok_io : IconIO :=
  {| mkdir_parents := Returned tt; session_get := Returned 200;
     open_file := Returned tt; write_chunks := Returned tt |}.

(** Nothing times out and every call succeeds; the only batch is
    harvested once. *)
Definition world_quiet : World :=
  {| fetch_playlist := fun _ => Response 200 [line_x];
     is_timeout_at := fun _ => false;
     icon_io := fun _ => ok_io;
     harvest := [Yields 0 false] |}.

(** The first download is still in flight when the wait of the
    [as_completed] iterator runs out; the alarm has set the flag by the
    time the second job is reached. *)
Definition world_slow_icon : World :=
  {| fetch_playlist := fun _ => Response 200 [line_x];
     is_timeout_at :=
       fun job => negb (Str.eqb (fst job) (lit "http://epg.one/img/x.png"));
     icon_io := fun _ => ok_io;
     harvest := [WaitTimeout] |}.

(** The directory for the square icon cannot be created. *)
Definition world_mkdir_fails : World :=
  {| fetch_playlist := fun _ => Response 200 [line_x];
     is_timeout_at := fun _ => false;
     icon_io :=
       fun job =>
         if Str.eqb (fst job) (lit "http://epg.one/img/x.png")
         then {| mkdir_parents := Raised OSError; session_get := Returned 200;
                 open_file := Returned tt; write_chunks := Returned tt |}
         else ok_io;
     harvest := [Yields 0 false] |}.

(** The first playlist answers 404, the other two are served. *)
Definition fetch_first_404 (url : str) : FetchOutcome :=
  if Str.eqb url (lit "http://epg.one/edem_epg_ico.m3u8")
  then Response 404 []
  else Response 200 [line_plain; line_x].

(** ** Further notions: keys, destinations, files, signals *)

(** A source URL on [epg.one] under one of the two icon segments. *)
Definition on_epg_one (k : str) : Prop :=
  exists scheme rest,
    is_scheme scheme /\
    (k = scheme ++ lit "://epg.one/img/" ++ rest \/
     k = scheme ++ lit "://epg.one/img2/" ++ rest).

(** A captured path that [pathlib] keeps as it is: every component
    between slashes is non-empty and is not a single dot. *)
Definition clean_path (p : str) : bool :=
  forallb keep_part (split slash p).

(** Line 83 finds the pattern in the line. *)
Definition matched (line : str) : bool :=
  match Re.search line with
  | Some _ => true
  | None => false
  end.

(** The text that lines 82-96 append for a line. *)
Definition rewritten_line (line : str) : str :=
  match Re.search line with
  | Some (old_icon_url, icon_path) =>
      replace old_icon_url (NEW_ICONS_BASE_URL_SQR ++ icon_path) line
  | None => line
  end.

(** The dictionary assignments that lines 87-88 make for a line. *)
Definition line_writes (line : str) : list (str * Path) :=
  match Re.search line with
  | Some (old_icon_url, icon_path) =>
      [(old_icon_url, div ICONS_SQR_DIR icon_path);
       (rect_url old_icon_url, div ICONS_RECT_DIR icon_path)]
  | None => []
  end.

(** A sequence of assignments [d[k] = v], in order. *)
Definition apply_writes (d : Dict.dict Path) (ws : list (str * Path))
  : Dict.dict Path :=
  fold_left (fun d kv => Dict.set d (fst kv) (snd kv)) ws d.

(** The file that lines 105-110 write for a source, if it is served. *)
Definition file_of (fetch : str -> FetchOutcome) (url : str)
  : list (str * str) :=
  match fetch_lines (fetch url) with
  | Returned playlist_lines =>
      [(url_filename url, join newline (map rewritten_line playlist_lines))]
  | Raised _ => []
  end.

(** The value kept for a square key is the square directory joined with
    the path that the key ends in. *)
Definition square_values (d : Dict.dict Path) : Prop :=
  forall scheme path v,
    is_scheme scheme ->
    Dict.get d (scheme ++ Re.host_img ++ path) = Some v ->
    v = div ICONS_SQR_DIR path.

(** Every event is a future handed over with the flag not set. *)
Definition all_harvested (events : list HarvestEvent) : Prop :=
  Forall (fun ev => exists i, ev = Yields i false) events.

(** ** [TimeoutHandler] and [timeout_context] (lines 27-47) *)

Module Signal.

(** What can be installed for [SIGALRM]. *)
Inductive Handler :=
| Default
| TimeoutHandlerMethod
| Other (id : nat).

(** The part of the process state that the two touch: the handler
    installed for [SIGALRM], the seconds left on the alarm clock (0: no
    alarm pending) and [timeout_handler.is_timeout]. *)
Record Process := {
  sigalrm : Handler;
  alarm_left : nat;
  is_timeout : bool
}.

(** [TimeoutHandler.handler(signum, frame)] *)
Definition handler (st : Process) : Process :=
  {| sigalrm := sigalrm st; alarm_left := alarm_left st;
     is_timeout := true |}.

(** [signal.signal(signal.SIGALRM, h)]: installs [h], returns the handler
    that was installed. *)
Definition signal_signal (h : Handler) (st : Process) : Handler * Process :=
  (sigalrm st,
   {| sigalrm := h; alarm_left := alarm_left st;
      is_timeout := is_timeout st |}).

(** [signal.alarm(seconds)]: replaces the pending alarm, returns the
    seconds that were left on it. *)
Definition signal_alarm (seconds : nat) (st : Process) : nat * Process :=
  (alarm_left st,
   {| sigalrm := sigalrm st; alarm_left := seconds;
      is_timeout := is_timeout st |}).

(** The alarm clock runs out: the installed handler is called. Only the
    effect of the script's own handler is described. *)
Definition alarm_fires (st : Process) : Process :=
  match sigalrm st with
  | TimeoutHandlerMethod =>
      handler {| sigalrm := sigalrm st; alarm_left := 0;
                 is_timeout := is_timeout st |}
  | _ => {| sigalrm := sigalrm st; alarm_left := 0;
            is_timeout := is_timeout st |}
  end.

(** [with timeout_context(seconds): body].  The [finally] block runs
    whether the body returns or raises, and the outcome of the body is
    the outcome of the statement. *)
Definition timeout_context {A : Type} (seconds : nat)
    (body : Process -> Process * Exc A) (st : Process) : Process * Exc A :=
  let (old_handler, st1) := signal_signal TimeoutHandlerMethod st in
  let (_, st2) := signal_alarm seconds st1 in
  let (st3, r) := body st2 in
  let (_, st4) := signal_alarm 0 st3 in
  let (_, st5) := signal_signal old_handler st4 in
  (st5, r).

End Signal.

(** ** Further concrete inputs *)

Definition line_absolute : str :=
  Re.attr ++ lit "http://epg.one/img//etc/x.png" ++ [dquote].

Definition line_https : str :=
  Re.attr ++ lit "https://epg.one/img/logos/a.png" ++ [dquote].

(** Every playlist answers 404. *)
Definition world_all_404 : World :=
  {| fetch_playlist := fun _ => Response 404 [];
     is_timeout_at := fun _ => false;
     icon_io := fun _ => ok_io;
     harvest := [] |}.

(** A process with the default handler and an alarm pending. *)
Definition process_alarm_pending : Signal.Process :=
  {| Signal.sigalrm := Signal.Default; Signal.alarm_left := 7;
     Signal.is_timeout := false |}.

(** A body during which the alarm goes off and which then raises. *)
Definition body_alarm_then_raise (st : Signal.Process)
  : Signal.Process * Exc unit :=
  (Signal.alarm_fires st, Raised TimeoutError).

(** Every directory can be created and every file written. *)
Definition disk_ok : Disk :=
  {| mkdir := fun _ => Returned tt; write_text := fun _ _ => Returned tt |}.



(** * Properties *)

Lemma str_eqb_eq : forall a b, Str.eqb a b = true <-> a = b.
Proof.
  induction a as [|x a IH]; destruct b as [|y b]; simpl; split;
    try discriminate; try reflexivity.
  - intros H. apply andb_true_iff in H. destruct H as [H1 H2].
    apply Ascii.eqb_eq in H1. apply IH in H2. congruence.
  - intros H. inversion H; subst. apply andb_true_iff. split.
    + apply Ascii.eqb_refl.
    + apply IH. reflexivity.
Qed.

Lemma str_eqb_refl : forall a, Str.eqb a a = true.
Proof. intros a. apply str_eqb_eq. reflexivity. Qed.

Lemma str_eqb_neq : forall a b, a <> b -> Str.eqb a b = false.
Proof.
  intros a b H. destruct (Str.eqb a b) eqn:E; [|reflexivity].
  apply str_eqb_eq in E. contradiction.
Qed.

Lemma startswith_app : forall p t, startswith p (p ++ t) = true.
Proof.
  induction p as [|x p IH]; intros t; simpl.
  - reflexivity.
  - rewrite Ascii.eqb_refl. apply IH.
Qed.

Lemma startswith_inv : forall p s,
  startswith p s = true -> exists t, s = p ++ t.
Proof.
  induction p as [|x p IH]; intros s H.
  - exists s. reflexivity.
  - destruct s as [|y s]; simpl in H; [discriminate|].
    apply andb_true_iff in H. destruct H as [H1 H2].
    apply Ascii.eqb_eq in H1. subst y.
    destruct (IH _ H2) as [t ->]. exists t. reflexivity.
Qed.

Lemma strip_prefix_inv : forall p s t,
  strip_prefix p s = Some t -> s = p ++ t.
Proof.
  induction p as [|x p IH]; intros s t H; simpl in H.
  - inversion H. reflexivity.
  - destruct s as [|y s]; [discriminate|].
    destruct (Ascii.eqb x y) eqn:E; [|discriminate].
    apply Ascii.eqb_eq in E. subst y. simpl. f_equal. apply IH. exact H.
Qed.

Lemma span_not_quote_inv : forall s a b,
  span_not_quote s = (a, b) ->
  s = a ++ b /\ ~ In dquote a /\ (b = [] \/ exists b', b = dquote :: b').
Proof.
  induction s as [|c s IH]; intros a b H; simpl in H.
  - inversion H; subst. simpl. auto.
  - destruct (Ascii.eqb c dquote) eqn:E.
    + inversion H; subst. apply Ascii.eqb_eq in E. subst c.
      simpl. repeat split; auto. right. eexists. reflexivity.
    + destruct (span_not_quote s) as [a' b'] eqn:S'.
      inversion H; subst. destruct (IH _ _ eq_refl) as (H1 & H2 & H3).
      repeat split.
      * simpl. congruence.
      * simpl. intros [Hc | Hin]; [|contradiction].
        subst c. rewrite Ascii.eqb_refl in E. discriminate.
      * exact H3.
Qed.

Lemma match_after_scheme_inv : forall scheme s old path,
  Re.match_after_scheme scheme s = Some (old, path) ->
  exists rest,
    old = scheme ++ Re.host_img ++ path /\ path <> [] /\
    ~ In dquote path /\ s = Re.host_img ++ path ++ dquote :: rest.
Proof.
  unfold Re.match_after_scheme. intros scheme s old path H.
  destruct (strip_prefix Re.host_img s) as [s'|] eqn:E; [|discriminate].
  apply strip_prefix_inv in E.
  destruct (span_not_quote s') as [a b] eqn:S'.
  apply span_not_quote_inv in S'. destruct S' as (H1 & H2 & H3).
  destruct a as [|c a]; [discriminate|].
  destruct b as [|q b]; [discriminate|].
  inversion H; subst old path. clear H.
  destruct H3 as [H3 | [b' H3]]; [discriminate|].
  inversion H3; subst q b'.
  exists b. repeat split; try assumption; try discriminate.
  subst s s'. reflexivity.
Qed.

Lemma match_here_inv : forall s old path,
  Re.match_here s = Some (old, path) ->
  exists scheme rest,
    is_scheme scheme /\ old = scheme ++ Re.host_img ++ path /\
    path <> [] /\ ~ In dquote path /\
    s = Re.attr ++ old ++ dquote :: rest.
Proof.
  unfold Re.match_here. intros s old path H.
  destruct (strip_prefix Re.attr s) as [s1|] eqn:E1; [|discriminate].
  apply strip_prefix_inv in E1.
  destruct (strip_prefix (lit "http") s1) as [s2|] eqn:E2; [|discriminate].
  apply strip_prefix_inv in E2.
  assert (Hhttp : Re.match_after_scheme (lit "http") s2 = Some (old, path) ->
    exists scheme rest,
      is_scheme scheme /\ old = scheme ++ Re.host_img ++ path /\
      path <> [] /\ ~ In dquote path /\
      s = Re.attr ++ old ++ dquote :: rest).
  { intros M. apply match_after_scheme_inv in M.
    destruct M as (rest & Ho & Hp & Hq & Hs).
    exists (lit "http"), rest.
    split; [left; reflexivity|]. split; [assumption|].
    split; [assumption|]. split; [assumption|].
    subst. rewrite <- !app_assoc. reflexivity. }
  destruct (strip_prefix (lit "s") s2) as [s3|] eqn:E3; [|auto].
  apply strip_prefix_inv in E3.
  destruct (Re.match_after_scheme (lit "https") s3) as [r|] eqn:M; [|auto].
  inversion H; subst r. clear H.
  apply match_after_scheme_inv in M.
  destruct M as (rest & Ho & Hp & Hq & Hs).
  exists (lit "https"), rest.
  split; [right; reflexivity|]. split; [assumption|].
  split; [assumption|]. split; [assumption|].
  subst. rewrite <- !app_assoc. reflexivity.
Qed.

Lemma search_unfold : forall s,
  Re.search s =
  match Re.match_here s with
  | Some r => Some r
  | None => match s with [] => None | _ :: s' => Re.search s' end
  end.
Proof. destruct s; reflexivity. Qed.

Lemma search_inv : forall s old path,
  Re.search s = Some (old, path) ->
  exists pre scheme rest,
    is_scheme scheme /\ old = scheme ++ Re.host_img ++ path /\
    path <> [] /\ ~ In dquote path /\
    s = pre ++ Re.attr ++ old ++ dquote :: rest.
Proof.
  induction s as [|c s IH]; intros old path H; rewrite search_unfold in H.
  - destruct (Re.match_here []) as [r|] eqn:M; [|discriminate].
    inversion H; subst r. apply match_here_inv in M.
    destruct M as (scheme & rest & M). exists [], scheme, rest. exact M.
  - destruct (Re.match_here (c :: s)) as [r|] eqn:M.
    + inversion H; subst r. apply match_here_inv in M.
      destruct M as (scheme & rest & M). exists [], scheme, rest. exact M.
    + destruct (IH _ _ H) as (pre & scheme & rest & H1 & H2 & H3 & H4 & H5).
      exists (c :: pre), scheme, rest.
      split; [assumption|]. split; [assumption|].
      split; [assumption|]. split; [assumption|].
      subst s. reflexivity.
Qed.

Lemma contains_app : forall pre p t, contains p (pre ++ p ++ t) = true.
Proof.
  induction pre as [|c pre IH]; intros p t.
  - simpl. destruct (p ++ t) eqn:E; simpl; rewrite <- E;
      rewrite startswith_app; reflexivity.
  - simpl. rewrite IH. apply orb_true_r.
Qed.

Lemma startswith_length : forall p s,
  startswith p s = true -> length p <= length s.
Proof.
  intros p s H. apply startswith_inv in H. destruct H as [t ->].
  rewrite length_app. lia.
Qed.

Lemma startswith_before : forall q old a b,
  ~ In q old -> startswith old (a ++ q :: b) = startswith old a.
Proof.
  induction old as [|x old IH]; intros a b Hq.
  - destruct a; reflexivity.
  - destruct a as [|y a]; simpl.
    + destruct (Ascii.eqb x q) eqn:E; [|reflexivity].
      apply Ascii.eqb_eq in E. subst. exfalso. apply Hq. left. reflexivity.
    + rewrite IH; [reflexivity|]. intros Hin. apply Hq. right. exact Hin.
Qed.

(** A character that does not occur in [old] cuts the scan in two. *)
Lemma replace_from_cut : forall old new q b,
  ~ In q old -> old <> [] ->
  forall a k, k <= length a ->
    replace_from old new k (a ++ q :: b) =
    replace_from old new k a ++ q :: replace_from old new 0 b.
Proof.
  intros old new q b Hq Hne.
  induction a as [|c a IH]; intros k Hk.
  - simpl in Hk. assert (k = 0) by lia. subst k.
    change ([] ++ q :: b) with (q :: b).
    cbn [replace_from app].
    replace (startswith old (q :: b)) with false; [reflexivity|].
    symmetry. destruct old as [|x old]; [contradiction|]. simpl.
    destruct (Ascii.eqb x q) eqn:E; [|reflexivity].
    apply Ascii.eqb_eq in E. subst. exfalso. apply Hq. left. reflexivity.
  - destruct k as [|k].
    + change ((c :: a) ++ q :: b) with (c :: (a ++ q :: b)).
      cbn [replace_from].
      change (c :: a ++ q :: b) with ((c :: a) ++ q :: b).
      rewrite startswith_before by exact Hq.
      destruct (startswith old (c :: a)) eqn:S.
      * apply startswith_length in S. simpl in S.
        rewrite IH by lia. rewrite app_assoc. reflexivity.
      * rewrite IH by lia. reflexivity.
    + simpl in Hk. simpl. apply IH. lia.
Qed.

Lemma replace_from_skip : forall old new a t,
  replace_from old new (length a) (a ++ t) = replace_from old new 0 t.
Proof.
  induction a as [|c a IH]; intros t.
  - destruct t; reflexivity.
  - simpl. apply IH.
Qed.

Lemma replace_from_self : forall old new t,
  old <> [] ->
  replace_from old new 0 (old ++ t) = new ++ replace_from old new 0 t.
Proof.
  intros old new t Hne. destruct old as [|x old]; [contradiction|].
  change ((x :: old) ++ t) with (x :: (old ++ t)).
  cbn [replace_from].
  change (x :: old ++ t) with ((x :: old) ++ t).
  rewrite startswith_app.
  replace (length (x :: old) - 1) with (length old) by (simpl; lia).
  rewrite replace_from_skip. reflexivity.
Qed.

(** Replacing a quote-free [old] in a text where it stands between two
    double quotes puts [new] between the same two quotes. *)
Lemma replace_between_quotes : forall old new a b,
  ~ In dquote old -> old <> [] ->
  replace old new (a ++ dquote :: old ++ dquote :: b) =
  replace old new a ++ dquote :: new ++ dquote :: replace old new b.
Proof.
  intros old new a b Hq Hne. unfold replace.
  destruct old as [|x old'] eqn:Eo; [contradiction|]. rewrite <- Eo in *.
  rewrite replace_from_cut by (assumption || lia).
  f_equal. f_equal.
  rewrite replace_from_self by assumption.
  rewrite <- (app_nil_l (dquote :: b)) at 1.
  rewrite replace_from_cut by (assumption || simpl; lia).
  reflexivity.
Qed.

Lemma scheme_no_quote : forall scheme path,
  is_scheme scheme -> ~ In dquote path ->
  ~ In dquote (scheme ++ Re.host_img ++ path).
Proof.
  intros scheme path Hs Hp Hin.
  apply in_app_or in Hin. destruct Hin as [Hin | Hin].
  - destruct Hs; subst scheme; simpl in Hin;
      repeat (destruct Hin as [Hin | Hin]; [discriminate Hin|]); exact Hin.
  - apply in_app_or in Hin. destruct Hin as [Hin | Hin]; [|auto].
    simpl in Hin.
    repeat (destruct Hin as [Hin | Hin]; [discriminate Hin|]); exact Hin.
Qed.

(** [rect_url] on a matched URL: the segment after the host becomes
    [/img2/] and the scan goes on through the captured path. *)
Lemma rect_url_matched : forall scheme path,
  is_scheme scheme ->
  rect_url (scheme ++ Re.host_img ++ path) =
  scheme ++ lit "://epg.one/img2/" ++ rect_url path.
Proof.
  intros scheme path [-> | ->]; reflexivity.
Qed.

Lemma rect_url_differs : forall scheme path,
  is_scheme scheme ->
  rect_url (scheme ++ Re.host_img ++ path) <> scheme ++ Re.host_img ++ path.
Proof.
  intros scheme path Hs E. rewrite rect_url_matched in E by exact Hs.
  apply app_inv_head in E. discriminate E.
Qed.

Lemma scan_line_matched : forall st line old_icon_url icon_path,
  Re.search line = Some (old_icon_url, icon_path) ->
  scan_line st line =
  {| icons :=
       Dict.set
         (Dict.set (icons st) old_icon_url (div ICONS_SQR_DIR icon_path))
         (rect_url old_icon_url) (div ICONS_RECT_DIR icon_path);
     replacements_count := replacements_count st + 1;
     not_replaced_count := not_replaced_count st;
     processed_lines :=
       processed_lines st ++
       [replace old_icon_url (NEW_ICONS_BASE_URL_SQR ++ icon_path) line] |}.
Proof.
  intros st line old path H. unfold scan_line.
  destruct (search_inv _ H) as (pre & scheme & rest & _ & _ & _ & _ & Hl).
  replace (contains Re.attr line) with true.
  - rewrite H. reflexivity.
  - subst line. symmetry. apply contains_app.
Qed.

(** When [re.search] finds the icon pattern in a line, the line that
    is appended to [processed_lines] carries
    [NEW_ICONS_BASE_URL_SQR + icon_path] between the two double quotes
    where the matched URL stood (the text before and after goes through
    the same [str.replace]); [original_icons] receives exactly two
    assignments, the first keyed by the matched URL and the second by
    [rect_url] of it, which is always a different key and begins with the
    scheme and [://epg.one/img2/]; from an empty dictionary the result has
    exactly these two entries.  For the line with the URL
    [http://epg.one/img/x.png] the output is the line with the mirror URL
    ending in [x.png], and the two jobs go to [img/x.png] and
    [img2/x.png]. *)
Theorem matched_line_rewritten_two_mappings :
  (forall st line old_icon_url icon_path,
      Re.search line = Some (old_icon_url, icon_path) ->
      let new_icon_url := NEW_ICONS_BASE_URL_SQR ++ icon_path in
      let sqr := div ICONS_SQR_DIR icon_path in
      let rect := div ICONS_RECT_DIR icon_path in
      let st' := scan_line st line in
      (exists before after,
          line = before ++ Re.attr ++ old_icon_url ++ dquote :: after /\
          processed_lines st' =
          processed_lines st ++
          [replace old_icon_url new_icon_url (before ++ lit "tvg-logo=") ++
           dquote :: new_icon_url ++
           dquote :: replace old_icon_url new_icon_url after]) /\
      (exists scheme,
          is_scheme scheme /\
          old_icon_url = scheme ++ lit "://epg.one/img/" ++ icon_path /\
          rect_url old_icon_url =
          scheme ++ lit "://epg.one/img2/" ++ rect_url icon_path) /\
      rect_url old_icon_url <> old_icon_url /\
      icons st' =
      Dict.set (Dict.set (icons st) old_icon_url sqr)
               (rect_url old_icon_url) rect /\
      (icons st = [] ->
       Dict.items (icons st') =
       [(old_icon_url, sqr); (rect_url old_icon_url, rect)]))
  /\
  (processed_lines (scan_line empty_scan line_x) =
   [Re.attr ++ NEW_ICONS_BASE_URL_SQR ++ lit "x.png" ++ [dquote]] /\
   show_jobs (icons (scan_line empty_scan line_x)) =
   [(lit "http://epg.one/img/x.png", lit "img/x.png");
    (lit "http://epg.one/img2/x.png", lit "img2/x.png")]).
Proof.
  split; [|split; vm_compute; reflexivity].
  intros st line old path H new sqr rect st'.
  destruct (search_inv _ H) as (pre & scheme & rest & Hs & Ho & Hp & Hq & Hl).
  assert (Hne : old <> []).
  { subst old. destruct Hs; subst scheme; discriminate. }
  assert (Hnq : ~ In dquote old).
  { subst old. apply scheme_no_quote; assumption. }
  assert (Hd : rect_url old <> old).
  { subst old. apply rect_url_differs. exact Hs. }
  subst st'. rewrite (scan_line_matched st _ H). cbn [icons processed_lines].
  split; [|split; [|split; [|split]]].
  - exists pre, rest. split; [exact Hl|]. f_equal. f_equal.
    fold new. rewrite Hl at 1. unfold Re.attr.
    rewrite <- replace_between_quotes by assumption.
    rewrite <- !app_assoc. reflexivity.
  - exists scheme. split; [exact Hs|]. split; [exact Ho|].
    rewrite Ho. apply rect_url_matched. exact Hs.
  - exact Hd.
  - reflexivity.
  - intros ->. simpl. rewrite str_eqb_neq by exact Hd. reflexivity.
Qed.

Lemma matched_line_rewritten_two_mappings_witness :
  Re.search line_x = Some (lit "http://epg.one/img/x.png", lit "x.png") /\
  rect_url (lit "http://epg.one/img/x.png") <> lit "http://epg.one/img/x.png".
Proof.
  assert (H : Re.search line_x
              = Some (lit "http://epg.one/img/x.png", lit "x.png"))
    by reflexivity.
  split; [exact H|].
  exact (proj1 (proj2 (proj2
           (proj1 matched_line_rewritten_two_mappings
                  empty_scan line_x _ _ H)))).
Defined.

(** C4.  A line without the attribute is appended unchanged and leaves
    [original_icons] as it was; so does a line that has the attribute but
    in which [re.search] finds no match. *)
Theorem unmatched_line_unchanged : forall st line,
  (contains Re.attr line = false ->
   processed_lines (scan_line st line) = processed_lines st ++ [line] /\
   icons (scan_line st line) = icons st) /\
  (contains Re.attr line = true -> Re.search line = None ->
   processed_lines (scan_line st line) = processed_lines st ++ [line] /\
   icons (scan_line st line) = icons st).
Proof.
  intros st line. unfold scan_line. split.
  - intros ->. split; reflexivity.
  - intros -> ->. split; reflexivity.
Qed.

(** *** Dictionary facts *)

Lemma set_keys_in : forall (V : Type) (d : Dict.dict V) k v k',
  In k' (Dict.keys (Dict.set d k v)) <-> k' = k \/ In k' (Dict.keys d).
Proof.
  induction d as [|[k0 v0] d IH]; intros k v k'; simpl.
  - intuition congruence.
  - destruct (Str.eqb k k0) eqn:E; simpl.
    + apply str_eqb_eq in E. subst k0. intuition congruence.
    + rewrite IH. intuition congruence.
Qed.

Lemma set_keys_nodup : forall (V : Type) (d : Dict.dict V) k v,
  NoDup (Dict.keys d) -> NoDup (Dict.keys (Dict.set d k v)).
Proof.
  induction d as [|[k0 v0] d IH]; intros k v H; simpl.
  - constructor; [intros []|constructor].
  - destruct (Str.eqb k k0) eqn:E; simpl.
    + exact H.
    + inversion H as [|? ? Hn Hd]; subst. constructor.
      * intros Hin. apply (set_keys_in d k v k0) in Hin.
        destruct Hin as [-> | Hin]; [|contradiction].
        rewrite str_eqb_refl in E. discriminate.
      * apply IH. exact Hd.
Qed.

Lemma get_set_same : forall (V : Type) (d : Dict.dict V) k v,
  Dict.get (Dict.set d k v) k = Some v.
Proof.
  induction d as [|[k0 v0] d IH]; intros k v; simpl.
  - rewrite str_eqb_refl. reflexivity.
  - destruct (Str.eqb k k0) eqn:E; simpl; rewrite E; [reflexivity|apply IH].
Qed.

Lemma get_set_other : forall (V : Type) (d : Dict.dict V) k v k',
  k' <> k -> Dict.get (Dict.set d k v) k' = Dict.get d k'.
Proof.
  induction d as [|[k0 v0] d IH]; intros k v k' Hne; simpl.
  - rewrite str_eqb_neq by exact Hne. reflexivity.
  - destruct (Str.eqb k k0) eqn:E; simpl.
    + apply str_eqb_eq in E. subst k0.
      rewrite str_eqb_neq by exact Hne. reflexivity.
    + destruct (Str.eqb k' k0); [reflexivity|]. apply IH. exact Hne.
Qed.

Lemma scan_line_keys_nodup : forall st line,
  NoDup (Dict.keys (icons st)) ->
  NoDup (Dict.keys (icons (scan_line st line))).
Proof.
  intros st line H. unfold scan_line.
  destruct (contains Re.attr line); [|exact H].
  destruct (Re.search line) as [[old path]|]; [|exact H].
  cbn [icons]. apply set_keys_nodup. apply set_keys_nodup. exact H.
Qed.

Lemma scan_line_keys_mono : forall st line k,
  In k (Dict.keys (icons st)) ->
  In k (Dict.keys (icons (scan_line st line))).
Proof.
  intros st line k H. unfold scan_line.
  destruct (contains Re.attr line); [|exact H].
  destruct (Re.search line) as [[old path]|]; [|exact H].
  cbn [icons]. apply set_keys_in. right. apply set_keys_in. right. exact H.
Qed.

Lemma fold_scan_keys_nodup : forall ls st,
  NoDup (Dict.keys (icons st)) ->
  NoDup (Dict.keys (icons (fold_left scan_line ls st))).
Proof.
  induction ls as [|l ls IH]; intros st H; simpl.
  - exact H.
  - apply IH. apply scan_line_keys_nodup. exact H.
Qed.

Lemma fold_scan_keys_mono : forall ls st k,
  In k (Dict.keys (icons st)) ->
  In k (Dict.keys (icons (fold_left scan_line ls st))).
Proof.
  induction ls as [|l ls IH]; intros st k H; simpl.
  - exact H.
  - apply IH. apply scan_line_keys_mono. exact H.
Qed.

Lemma fold_scan_keys_of_line : forall ls st line old path,
  In line ls -> Re.search line = Some (old, path) ->
  In old (Dict.keys (icons (fold_left scan_line ls st))) /\
  In (rect_url old) (Dict.keys (icons (fold_left scan_line ls st))).
Proof.
  induction ls as [|l ls IH]; intros st line old path Hin Hs; simpl.
  - destruct Hin.
  - destruct Hin as [-> | Hin].
    + split; apply fold_scan_keys_mono;
        rewrite (scan_line_matched st line Hs); cbn [icons].
      * apply set_keys_in. right. apply set_keys_in. left. reflexivity.
      * apply set_keys_in. left. reflexivity.
    + eapply IH; eassumption.
Qed.

Lemma process_playlist_keys_nodup : forall fetch st url,
  NoDup (Dict.keys (original_icons st)) ->
  NoDup (Dict.keys (original_icons (process_playlist fetch st url))).
Proof.
  intros fetch st url H. unfold process_playlist.
  destruct (fetch_lines (fetch url)); [|exact H].
  cbn [original_icons]. unfold scan_lines.
  apply fold_scan_keys_nodup. exact H.
Qed.

(** The job list handed to [run_download_worker] has no two entries with
    the same source URL. *)
Lemma original_icons_keys_nodup : forall fetch urls,
  NoDup (Dict.keys (original_icons (process_playlists fetch urls))).
Proof.
  intros fetch urls. unfold process_playlists.
  set (st0 := {| original_icons := []; written := [];
                 processed_files := [] |}).
  assert (H0 : NoDup (Dict.keys (original_icons st0))) by constructor.
  revert H0. generalize st0. clear st0.
  induction urls as [|u urls IH]; intros st H; simpl.
  - exact H.
  - apply IH. apply process_playlist_keys_nodup. exact H.
Qed.

(** *** Batches *)

Section Batches.
Variable A : Type.

Lemma firstn_add_skipn : forall (l : list A) a b,
  firstn (a + b) l = firstn a l ++ firstn b (skipn a l).
Proof.
  intros l a. revert l.
  induction a as [|a IH]; intros l b.
  - reflexivity.
  - destruct l as [|x l]; simpl.
    + rewrite firstn_nil. reflexivity.
    + rewrite IH. reflexivity.
Qed.

Lemma slice_width : forall (l : list A) i bs,
  slice l i (i + bs) = firstn bs (skipn i l).
Proof.
  intros l i bs. unfold slice. f_equal. lia.
Qed.

Lemma concat_slices : forall (l : list A) bs n,
  concat (map (fun i => slice l i (i + bs))
              (map (fun k => k * bs) (seq 0 n))) = firstn (n * bs) l.
Proof.
  intros l bs. induction n as [|n IH].
  - reflexivity.
  - rewrite seq_S, !map_app, concat_app, IH. simpl.
    rewrite app_nil_r, slice_width.
    replace (bs + n * bs) with (n * bs + bs) by lia.
    rewrite firstn_add_skipn. reflexivity.
Qed.

Lemma batch_count_covers : forall len bs,
  0 < bs -> len <= ((len + bs - 1) / bs) * bs.
Proof.
  intros len bs Hbs.
  pose proof (Nat.div_mod (len + bs - 1) bs) as D.
  pose proof (Nat.mod_upper_bound (len + bs - 1) bs) as M.
  nia.
Qed.

Lemma batch_count_tight : forall len bs,
  0 < bs -> 0 < len -> (((len + bs - 1) / bs) - 1) * bs < len.
Proof.
  intros len bs Hbs Hlen.
  pose proof (Nat.div_mod (len + bs - 1) bs) as D.
  pose proof (Nat.mod_upper_bound (len + bs - 1) bs) as M.
  nia.
Qed.

Lemma make_batches_length : forall bs (l : list A),
  length (make_batches bs l) = (length l + bs - 1) / bs.
Proof.
  intros bs l. unfold make_batches, range_step.
  rewrite !length_map, length_seq. reflexivity.
Qed.

Lemma nth_map_seq : forall (B : Type) (f : nat -> B) n i d,
  i < n -> nth i (map f (seq 0 n)) d = f i.
Proof.
  intros B f n i d Hi.
  rewrite nth_indep with (d' := f 0)
    by (rewrite length_map, length_seq; exact Hi).
  rewrite map_nth, seq_nth by exact Hi. reflexivity.
Qed.

Lemma make_batches_nth : forall bs (l : list A) i,
  i < length (make_batches bs l) ->
  nth i (make_batches bs l) [] = firstn bs (skipn (i * bs) l).
Proof.
  intros bs l i Hi. rewrite make_batches_length in Hi.
  unfold make_batches, range_step. rewrite map_map.
  rewrite nth_map_seq by exact Hi. apply slice_width.
Qed.

Lemma make_batches_concat : forall bs (l : list A),
  0 < bs -> concat (make_batches bs l) = l.
Proof.
  intros bs l Hbs. unfold make_batches, range_step.
  rewrite concat_slices. apply firstn_all2.
  apply batch_count_covers. exact Hbs.
Qed.

Lemma make_batches_sizes : forall bs (l : list A) i,
  0 < bs -> i < length (make_batches bs l) ->
  1 <= length (nth i (make_batches bs l) []) <= bs /\
  (S i < length (make_batches bs l) ->
   length (nth i (make_batches bs l) []) = bs).
Proof.
  intros bs l i Hbs Hi. rewrite make_batches_nth by exact Hi.
  rewrite make_batches_length in *.
  rewrite length_firstn, length_skipn.
  assert (Hlen : 0 < length l).
  { destruct (length l) eqn:E; [|lia].
    rewrite Nat.div_small in Hi by lia. lia. }
  pose proof (batch_count_tight Hbs Hlen) as T.
  pose proof (batch_count_covers (length l) Hbs) as C.
  pose proof (Nat.div_mod (length l + bs - 1) bs) as D.
  pose proof (Nat.mod_upper_bound (length l + bs - 1) bs) as M.
  split; [split|intros Hi']; nia.
Qed.

End Batches.

(** C6.  Concatenating the batches in order gives back the job list; every
    batch has between 1 and [batch_size] = 50 entries, and every batch
    that is not the last has exactly [batch_size]. *)
Theorem batches_partition_jobs : forall items : list Job,
  let batches := make_batches batch_size items in
  concat batches = items /\
  (forall i, i < length batches ->
      1 <= length (nth i batches []) <= batch_size /\
      (S i < length batches -> length (nth i batches []) = batch_size)).
Proof.
  intros items batches.
  assert (Hbs : 0 < batch_size) by (unfold batch_size; lia).
  split.
  - apply make_batches_concat. exact Hbs.
  - intros i Hi. apply make_batches_sizes; assumption.
Qed.

(** *** download_icon_batch *)

Lemma raise_for_status_bad : forall c,
  400 <= c < 600 -> raise_for_status c = Raised RequestException.
Proof.
  intros c [H1 H2]. unfold raise_for_status.
  apply Nat.leb_le in H1. apply Nat.ltb_lt in H2. rewrite H1, H2. reflexivity.
Qed.

Lemma io_fails_raises : forall io,
  io_fails io -> exists e, save_icon io = Raised e.
Proof.
  intros io H. unfold save_icon.
  destruct (mkdir_parents io) as [[]|e1] eqn:E1; [|exists e1; reflexivity].
  destruct (session_get io) as [c|e2] eqn:G; [|exists e2; reflexivity].
  cbn [bind].
  destruct (raise_for_status c) as [[]|e3] eqn:R; [|exists e3; reflexivity].
  destruct (open_file io) as [[]|e4] eqn:E4; [|exists e4; reflexivity].
  destruct (write_chunks io) as [[]|e5] eqn:E5; [|exists e5; reflexivity].
  exfalso.
  destruct H as [[e H]|[[e H]|[[c' [H Hc]]|[[e H]|[e H]]]]];
    try congruence.
  assert (c' = c) by congruence. subst c'.
  rewrite (raise_for_status_bad Hc) in R. discriminate.
Qed.

Lemma batch_loop_step : forall w job rest success,
  is_timeout_at w job = false ->
  batch_loop w (job :: rest) success =
  batch_loop w rest (if fetch_ok w job then success + 1 else success).
Proof.
  intros w job rest success Hf. cbn [batch_loop]. rewrite Hf.
  unfold fetch_ok. destruct (save_icon (icon_io w job)); reflexivity.
Qed.

Lemma batch_loop_returns : forall w items success,
  exists n, batch_loop w items success = Returned n /\
            success <= n <= success + length items.
Proof.
  intros w items. induction items as [|job rest IH]; intros success.
  - exists success. simpl. split; [reflexivity|lia].
  - destruct (is_timeout_at w job) eqn:Hf.
    + exists success. cbn [batch_loop]. rewrite Hf.
      split; [reflexivity|simpl; lia].
    + rewrite batch_loop_step by exact Hf.
      destruct (IH (if fetch_ok w job then success + 1 else success))
        as (n & Hn & Hb).
      exists n. split; [exact Hn|]. simpl.
      destruct (fetch_ok w job); lia.
Qed.

Lemma batch_loop_skips_failure : forall w before job after success,
  is_timeout_at w job = false -> fetch_ok w job = false ->
  batch_loop w (before ++ job :: after) success =
  batch_loop w (before ++ after) success.
Proof.
  intros w before job after success Hf Hk.
  revert success. induction before as [|b before IH]; intros success.
  - simpl app. rewrite batch_loop_step by exact Hf. rewrite Hk. reflexivity.
  - simpl app. cbn [batch_loop].
    destruct (is_timeout_at w b); [reflexivity|].
    destruct (try_except _ _); cbn [bind]; [apply IH|reflexivity].
Qed.

Lemma batch_loop_all_polls_false : forall w items success,
  (forall job, is_timeout_at w job = false) ->
  batch_loop w items success =
  Returned (success + length (filter (fetch_ok w) items)).
Proof.
  intros w items success Hf. revert success.
  induction items as [|job rest IH]; intros success.
  - simpl. f_equal. lia.
  - rewrite batch_loop_step by apply Hf. rewrite IH. simpl.
    destruct (fetch_ok w job); simpl; f_equal; lia.
Qed.

Lemma raise_for_status_raises : forall c e,
  raise_for_status c = Raised e -> 400 <= c < 600.
Proof.
  intros c e H. unfold raise_for_status in H.
  destruct (400 <=? c) eqn:E1; destruct (c <? 600) eqn:E2;
    simpl in H; try discriminate H.
  apply Nat.leb_le in E1. apply Nat.ltb_lt in E2. lia.
Qed.

Lemma save_icon_raises_fails : forall io e,
  save_icon io = Raised e -> io_fails io.
Proof.
  intros io e H. unfold save_icon in H. unfold io_fails.
  destruct (mkdir_parents io) as [[]|e1] eqn:E1;
    [|left; exists e1; reflexivity].
  destruct (session_get io) as [c|e2] eqn:G;
    [|right; left; exists e2; reflexivity].
  cbn [bind] in H.
  destruct (raise_for_status c) as [[]|e3] eqn:R.
  - cbn [bind] in H.
    destruct (open_file io) as [[]|e4] eqn:E4;
      [|right; right; right; left; exists e4; reflexivity].
    cbn [bind] in H. right. right. right. right. exists e. exact H.
  - right. right. left. exists c. split; [reflexivity|].
    eapply raise_for_status_raises. exact R.
Qed.

Lemma fetch_ok_false_iff : forall w job,
  fetch_ok w job = false <-> io_fails (icon_io w job).
Proof.
  intros w job. unfold fetch_ok. split.
  - destruct (save_icon (icon_io w job)) as [u|e] eqn:S; [discriminate|].
    intros _. eapply save_icon_raises_fails. exact S.
  - intros H. destruct (io_fails_raises H) as [e ->]. reflexivity.
Qed.

Lemma batch_loop_shift : forall w items success,
  batch_loop w items success =
  match batch_loop w items 0 with
  | Returned n => Returned (success + n)
  | Raised e => Raised e
  end.
Proof.
  intros w items. induction items as [|job rest IH]; intros success.
  - simpl. f_equal. lia.
  - destruct (is_timeout_at w job) eqn:Hf.
    + cbn [batch_loop]. rewrite Hf. f_equal. lia.
    + rewrite !batch_loop_step by exact Hf.
      rewrite (IH (if fetch_ok w job then success + 1 else success)).
      rewrite (IH (if fetch_ok w job then 0 + 1 else 0)).
      destruct (batch_loop w rest 0) as [n|e]; [|reflexivity].
      destruct (fetch_ok w job); f_equal; lia.
Qed.

Lemma batch_loop_polls_false : forall w items success,
  (forall job, In job items -> is_timeout_at w job = false) ->
  batch_loop w items success =
  Returned (success + length (filter (fetch_ok w) items)).
Proof.
  intros w items. induction items as [|job rest IH]; intros success Hf.
  - simpl. f_equal. lia.
  - rewrite batch_loop_step by (apply Hf; left; reflexivity).
    rewrite IH by (intros j Hj; apply Hf; right; exact Hj).
    simpl. destruct (fetch_ok w job); simpl; f_equal; lia.
Qed.

(** C8.  [download_icon_batch] returns a count for every batch and every
    behaviour of the outside world.  A job that is reached and for which
    any call in the [try] raises (or the status is an error status) counts
    for nothing, and the rest of the batch is processed as if the job were
    not in the list.  A job that is reached and for which no call raises
    adds one to what the jobs after it give.  So, as long as the flag is
    not seen set, the count is the number of jobs of the batch for which
    no call raises, wherever the failing jobs stand. *)
Theorem icon_failure_is_local : forall w,
  (forall batch_items, exists n,
      download_icon_batch w batch_items = Returned n) /\
  (forall before job after,
      is_timeout_at w job = false -> io_fails (icon_io w job) ->
      download_icon_batch w [job] = Returned 0 /\
      download_icon_batch w (before ++ job :: after) =
      download_icon_batch w (before ++ after)) /\
  (forall job after n,
      is_timeout_at w job = false -> ~ io_fails (icon_io w job) ->
      download_icon_batch w after = Returned n ->
      download_icon_batch w (job :: after) = Returned (S n)) /\
  (forall job, fetch_ok w job = false <-> io_fails (icon_io w job)) /\
  (forall batch_items,
      (forall job, In job batch_items -> is_timeout_at w job = false) ->
      download_icon_batch w batch_items =
      Returned (length (filter (fetch_ok w) batch_items))).
Proof.
  intros w. split; [|split; [|split; [|split]]].
  - intros items. destruct (batch_loop_returns w items 0) as (n & Hn & _).
    exists n. exact Hn.
  - intros before job after Hf Hio.
    assert (Hk : fetch_ok w job = false).
    { unfold fetch_ok. destruct (io_fails_raises Hio) as [e ->]. reflexivity. }
    unfold download_icon_batch. split.
    + rewrite batch_loop_step by exact Hf. rewrite Hk. reflexivity.
    + apply batch_loop_skips_failure; assumption.
  - intros job after n Hf Hio Hn. unfold download_icon_batch in *.
    assert (Hk : fetch_ok w job = true).
    { destruct (fetch_ok w job) eqn:E; [reflexivity|].
      exfalso. apply Hio. apply fetch_ok_false_iff. exact E. }
    rewrite batch_loop_step by exact Hf. rewrite Hk.
    rewrite batch_loop_shift, Hn. f_equal; lia.
  - intros job. apply fetch_ok_false_iff.
  - intros items Hf. unfold download_icon_batch.
    rewrite batch_loop_polls_false by exact Hf. reflexivity.
Qed.

(** *** The harvest loop *)

Lemma list_sum_perm : forall l l',
  Permutation l l' -> list_sum l = list_sum l'.
Proof.
  intros l l' P. induction P; simpl; lia.
Qed.

Lemma list_sum_zero : forall (f : nat -> nat) l,
  (forall i, In i l -> f i = 0) -> list_sum (map f l) = 0.
Proof.
  intros f. induction l as [|x l IH]; intros H; simpl.
  - reflexivity.
  - rewrite (H x) by (left; reflexivity). apply IH.
    intros i Hi. apply H. right. exact Hi.
Qed.

Lemma list_sum_mask : forall (f : nat -> nat) n l,
  NoDup l ->
  let f' := fun i => if i =? n then 0 else f i in
  list_sum (map f l) <= list_sum (map f' l) + f n /\
  (~ In n l -> list_sum (map f l) = list_sum (map f' l)).
Proof.
  intros f n l H f'. induction H as [|x l Hx Hd IH]; simpl.
  - split; [lia|reflexivity].
  - destruct IH as [IH1 IH2]. unfold f' at 1 3.
    destruct (Nat.eqb_spec x n) as [-> | Hne].
    + rewrite (IH2 Hx). split; [lia|]. intros Hn. exfalso. apply Hn.
      left. reflexivity.
    + split; [lia|]. intros Hn. rewrite IH2; [reflexivity|].
      intros Hin. apply Hn. right. exact Hin.
Qed.

(** A duplicate-free list of indices selects at most the whole sum. *)
Lemma list_sum_nodup_le : forall n (f : nat -> nat) l,
  NoDup l -> (forall i, n <= i -> f i = 0) ->
  list_sum (map f l) <= list_sum (map f (seq 0 n)).
Proof.
  induction n as [|n IH]; intros f l Hd Hz.
  - rewrite list_sum_zero; [lia|]. intros i _. apply Hz. lia.
  - rewrite seq_S, map_app, list_sum_app. simpl.
    destruct (list_sum_mask f n Hd) as [Hm _].
    set (f' := fun i => if i =? n then 0 else f i) in *.
    assert (Hz' : forall i, n <= i -> f' i = 0).
    { intros i Hi. unfold f'. destruct (Nat.eqb_spec i n); [reflexivity|].
      apply Hz. lia. }
    pose proof (IH f' l Hd Hz') as Hle.
    assert (He : map f' (seq 0 n) = map f (seq 0 n)).
    { apply map_ext_in. intros i Hi. apply in_seq in Hi. unfold f'.
      destruct (Nat.eqb_spec i n); [lia|reflexivity]. }
    rewrite He in Hle. lia.
Qed.

Lemma map_nth_all : forall (B : Type) (l : list B) d,
  map (fun i => nth i l d) (seq 0 (length l)) = l.
Proof.
  intros B l d. induction l as [|x l IH]; simpl.
  - reflexivity.
  - f_equal. rewrite <- seq_shift, map_map. exact IH.
Qed.

Lemma list_sum_filter_concat : forall (B : Type) (p : B -> bool) L,
  list_sum (map (fun b => length (filter p b)) L) =
  length (filter p (concat L)).
Proof.
  intros B p. induction L as [|b L IH]; simpl.
  - reflexivity.
  - rewrite filter_app, length_app, IH. reflexivity.
Qed.

Lemma harvest_loop_bound : forall future_result cap,
  (forall i n, future_result i = Returned n -> n <= cap i) ->
  forall events total,
    total_downloaded (harvest_loop future_result events total) <=
    total + list_sum (map cap (yielded events)).
Proof.
  intros fr cap Hcap. induction events as [|ev events IH]; intros total.
  - simpl. lia.
  - destruct ev as [i flag|]; cbn [harvest_loop].
    + destruct flag; [simpl; lia|].
      simpl yielded. cbn [map list_sum app].
      destruct (fr i) as [n|e] eqn:F.
      * specialize (IH (total + n)). apply Hcap in F.
        simpl in *. lia.
      * assert (H := IH total). destruct e; simpl in *; lia.
    + simpl. lia.
Qed.

Lemma harvest_loop_all : forall future_result count,
  (forall i, future_result i = Returned (count i)) ->
  forall order total,
    harvest_loop future_result (map (fun i => Yields i false) order) total =
    {| total_downloaded := total + list_sum (map count order);
       outcome := Returned tt |}.
Proof.
  intros fr count Hfr. induction order as [|i order IH]; intros total; simpl.
  - f_equal. lia.
  - rewrite Hfr, IH. f_equal. lia.
Qed.

(** The only exception that leaves the loop is the iterator's own. *)
Lemma harvest_loop_raises : forall future_result events total e,
  outcome (harvest_loop future_result events total) = Raised e ->
  e = TimeoutError /\ In WaitTimeout events.
Proof.
  intros fr. induction events as [|ev events IH]; intros total e H.
  - discriminate.
  - destruct ev as [i flag|]; cbn [harvest_loop] in H.
    + destruct flag; [discriminate|].
      destruct (fr i) as [n|[]];
        apply IH in H; destruct H as [H1 H2];
        (split; [exact H1|right; exact H2]).
    + simpl in H. split; [congruence|left; reflexivity].
Qed.

(** C7.  When the iterator hands over each future at most once,
    [total_downloaded] never exceeds the number of jobs, whether the
    function returns or raises.  When moreover the flag is never seen set
    and the iterator hands over every future exactly once, the function
    returns and [total_downloaded] is the number of jobs whose download
    succeeds. *)
Theorem succeeded_count_bounded_and_exact : forall w icons,
  NoDup (yielded (harvest w)) ->
  total_downloaded (run_download_worker w icons) <=
  length (Dict.items icons) /\
  ((forall job, is_timeout_at w job = false) ->
   (exists order,
       Permutation order
         (seq 0 (length (make_batches batch_size (Dict.items icons)))) /\
       harvest w = map (fun i => Yields i false) order) ->
   run_download_worker w icons =
   {| total_downloaded := length (filter (fetch_ok w) (Dict.items icons));
      outcome := Returned tt |}).
Proof.
  intros w icons Hnd. unfold run_download_worker.
  set (items := Dict.items icons).
  set (batches := make_batches batch_size items).
  assert (Hcat : concat batches = items).
  { apply make_batches_concat. unfold batch_size. lia. }
  split.
  - set (cap := fun i => length (nth i batches [])).
    assert (Hcap : forall i n,
               download_icon_batch w (nth i batches []) = Returned n ->
               n <= cap i).
    { intros i n H. unfold download_icon_batch in H.
      destruct (batch_loop_returns w (nth i batches []) 0) as (m & Hm & Hb).
      rewrite Hm in H. injection H as <-. unfold cap.
      destruct Hb as [_ Hb]. exact Hb. }
    pose proof (@harvest_loop_bound _ cap Hcap (harvest w) 0) as Hb.
    assert (Hz : forall i, length batches <= i -> cap i = 0).
    { intros i Hi. unfold cap. rewrite nth_overflow by exact Hi. reflexivity. }
    pose proof (@list_sum_nodup_le (length batches) cap _ Hnd Hz) as Hs.
    assert (Hall : list_sum (map cap (seq 0 (length batches))) = length items).
    { transitivity (length (concat batches)); [|rewrite Hcat; reflexivity].
      rewrite length_concat. f_equal. unfold cap.
      rewrite <- (map_map (fun i => nth i batches []) (@length Job)).
      rewrite map_nth_all. reflexivity. }
    simpl in Hb. lia.
  - intros Hf (order & Hperm & Hev). rewrite Hev.
    set (count := fun i => length (filter (fetch_ok w) (nth i batches []))).
    rewrite harvest_loop_all with (count := count).
    + f_equal. simpl.
      rewrite (list_sum_perm (Permutation_map count Hperm)).
      unfold count. subst batches items.
      rewrite <- (map_map
                    (fun i => nth i (make_batches batch_size
                                       (Dict.items icons)) [])
                    (fun b => length (filter (fetch_ok w) b))).
      rewrite map_nth_all, list_sum_filter_concat, Hcat.
      reflexivity.
    + intros i. unfold download_icon_batch, count.
      rewrite batch_loop_all_polls_false by exact Hf. reflexivity.
Qed.

(** *** Concrete runs *)

(** C1.  A run in which the wait of the [as_completed] iterator runs out
    while the first download is still in flight: [TimeoutError] is raised
    in the [for] header, outside the [try], and leaves
    [run_download_worker] and [main]. *)
Theorem harvest_wait_timeout_escapes :
  Dict.items (original_icons (playlists (main (Some repo) world_slow_icon))) =
  [(lit "http://epg.one/img/x.png", parse (lit "img/x.png"));
   (lit "http://epg.one/img2/x.png", parse (lit "img2/x.png"))] /\
  run_download_worker world_slow_icon
    (original_icons (playlists (main (Some repo) world_slow_icon))) =
  {| total_downloaded := 0; outcome := Raised TimeoutError |} /\
  exit (main (Some repo) world_slow_icon) = Raised TimeoutError.
Proof.
  split; [|split]; vm_compute; reflexivity.
Qed.

(** C2.  For the line with the matched URL
    [http://epg.one/img/a/img/b.png] the output line carries the mirror
    URL and the first job is keyed by the matched URL, but the second key
    is [http://epg.one/img2/a/img2/b.png]; the rectangular-variant URL
    [http://epg.one/img2/a/img/b.png], which has the same path under
    [/img2/], is not a key of the dictionary. *)
Theorem rect_key_is_not_the_variant_url :
  Re.search line_nested =
  Some (lit "http://epg.one/img/a/img/b.png", lit "a/img/b.png") /\
  processed_lines (scan_line empty_scan line_nested) =
  [Re.attr ++ NEW_ICONS_BASE_URL_SQR ++ lit "a/img/b.png" ++ [dquote]] /\
  Dict.keys (icons (scan_line empty_scan line_nested)) =
  [lit "http://epg.one/img/a/img/b.png";
   lit "http://epg.one/img2/a/img2/b.png"] /\
  Dict.get (icons (scan_line empty_scan line_nested))
           (lit "http://epg.one/img2/a/img/b.png") = None.
Proof.
  split; [|split; [|split]]; vm_compute; reflexivity.
Qed.

(** C3.  For the matched URL [http://epg.one/img/a/img/b.png] the key of
    the rectangular job is [http://epg.one/img2/a/img2/b.png]: the
    replacement also rewrites the [/img/] inside the captured path, while
    the destination [img2/a/img/b.png] keeps the path as captured. *)
Theorem rect_url_rewrites_inside_path :
  Re.search line_nested =
  Some (lit "http://epg.one/img/a/img/b.png", lit "a/img/b.png") /\
  show_jobs (icons (scan_line empty_scan line_nested)) =
  [(lit "http://epg.one/img/a/img/b.png", lit "img/a/img/b.png");
   (lit "http://epg.one/img2/a/img2/b.png", lit "img2/a/img/b.png")] /\
  rect_url (lit "http://epg.one/img/a/img/b.png") <>
  lit "http://epg.one/img2/a/img/b.png".
Proof.
  split; [|split]; [vm_compute; reflexivity ..|].
  vm_compute. discriminate.
Qed.

(** C5.  The lines with the paths [a/img/b.png] and [a/img2/b.png] both
    write the key [http://epg.one/img2/a/img2/b.png], with different
    destinations; which destination the job keeps depends on the order of
    the two lines, and a further reference to the first icon changes the
    dictionary again. *)
Theorem rect_key_destination_depends_on_order :
  Re.search line_nested2 =
  Some (lit "http://epg.one/img/a/img2/b.png", lit "a/img2/b.png") /\
  option_map to_str
    (Dict.get (icons (scan_lines [] [line_nested; line_nested2]))
              (lit "http://epg.one/img2/a/img2/b.png")) =
  Some (lit "img2/a/img2/b.png") /\
  option_map to_str
    (Dict.get (icons (scan_lines [] [line_nested2; line_nested]))
              (lit "http://epg.one/img2/a/img2/b.png")) =
  Some (lit "img2/a/img/b.png") /\
  icons (scan_lines [] [line_nested; line_nested2; line_nested]) <>
  icons (scan_lines [] [line_nested; line_nested2]).
Proof.
  split; [|split; [|split]]; [vm_compute; reflexivity ..|].
  vm_compute. discriminate.
Qed.

(** *** The playlist loop *)

Lemma process_playlist_failed : forall fetch st url,
  fetch_fails (fetch url) -> process_playlist fetch st url = st.
Proof.
  intros fetch st url [H | (c & ls & H & Hc)]; unfold process_playlist;
    rewrite H; simpl.
  - reflexivity.
  - rewrite (raise_for_status_bad Hc). reflexivity.
Qed.

Lemma process_playlist_fetched : forall fetch st url c ls,
  fetch url = Response c ls -> ~ (400 <= c < 600) ->
  process_playlist fetch st url =
  {| original_icons := icons (scan_lines (original_icons st) ls);
     written :=
       written st ++
       [(url_filename url,
         join newline (processed_lines (scan_lines (original_icons st) ls)))];
     processed_files := processed_files st ++ [url_filename url] |}.
Proof.
  intros fetch st url c ls H Hc. unfold process_playlist. rewrite H. simpl.
  unfold raise_for_status.
  destruct (400 <=? c) eqn:E1; destruct (c <? 600) eqn:E2; simpl;
    try reflexivity.
  apply Nat.leb_le in E1. apply Nat.ltb_lt in E2. exfalso. apply Hc. lia.
Qed.

Lemma process_playlist_mono : forall fetch st url,
  (forall x, In x (written st) ->
             In x (written (process_playlist fetch st url))) /\
  (forall f, In f (processed_files st) ->
             In f (processed_files (process_playlist fetch st url))) /\
  (forall k, In k (Dict.keys (original_icons st)) ->
             In k (Dict.keys (original_icons (process_playlist fetch st url)))).
Proof.
  intros fetch st url. unfold process_playlist.
  destruct (fetch_lines (fetch url)) as [ls|e]; [|auto].
  cbn [written processed_files original_icons].
  split; [|split].
  - intros x H. apply in_or_app. left. exact H.
  - intros f H. apply in_or_app. left. exact H.
  - intros k H. unfold scan_lines. apply fold_scan_keys_mono. exact H.
Qed.

Lemma fold_playlists_mono : forall fetch urls st,
  (forall x, In x (written st) ->
             In x (written (fold_left (process_playlist fetch) urls st))) /\
  (forall f, In f (processed_files st) ->
             In f (processed_files
                     (fold_left (process_playlist fetch) urls st))) /\
  (forall k, In k (Dict.keys (original_icons st)) ->
             In k (Dict.keys (original_icons
                     (fold_left (process_playlist fetch) urls st)))).
Proof.
  intros fetch. induction urls as [|u urls IH]; intros st; simpl.
  - auto.
  - destruct (IH (process_playlist fetch st u)) as (I1 & I2 & I3).
    destruct (process_playlist_mono fetch st u) as (M1 & M2 & M3).
    split; [|split]; auto.
Qed.

Lemma fold_playlists_fetched : forall fetch urls st other c ls,
  In other urls -> fetch other = Response c ls -> ~ (400 <= c < 600) ->
  let st' := fold_left (process_playlist fetch) urls st in
  In (url_filename other) (processed_files st') /\
  (exists d,
      In (url_filename other,
          join newline (processed_lines (scan_lines d ls))) (written st')) /\
  (forall line old path,
      In line ls -> Re.search line = Some (old, path) ->
      In old (Dict.keys (original_icons st')) /\
      In (rect_url old) (Dict.keys (original_icons st'))).
Proof.
  intros fetch. induction urls as [|u urls IH];
    intros st other c ls Hin Hf Hc; [destruct Hin|].
  destruct Hin as [-> | Hin].
  - simpl. rewrite (@process_playlist_fetched fetch st other c ls Hf Hc).
    set (st1 := {| original_icons := _ |}).
    destruct (fold_playlists_mono fetch urls st1) as (M1 & M2 & M3).
    split; [|split].
    + apply M2. simpl. apply in_or_app. right. left. reflexivity.
    + exists (original_icons st). apply M1. simpl.
      apply in_or_app. right. left. reflexivity.
    + intros line old path Hl Hs.
      split; apply M3; simpl; unfold scan_lines;
        eapply fold_scan_keys_of_line; eassumption.
  - simpl. apply IH with (c := c); assumption.
Qed.

(** C9.  A source whose request raises or answers with an error status
    leaves the state untouched: the run over a list of sources that
    contains it ends in the same state (files written, file names, icon
    dictionary) as the run over the list without it.  Every source of the
    list that is served has its file name in [processed_files], its
    rewritten text among the files written, and the keys of all its
    matched lines in [original_icons]. *)
Theorem failed_source_skipped_others_kept : forall fetch before url after,
  fetch_fails (fetch url) ->
  (forall st, process_playlist fetch st url = st) /\
  process_playlists fetch (before ++ url :: after) =
  process_playlists fetch (before ++ after) /\
  (forall other status_code playlist_lines,
      In other (before ++ url :: after) ->
      fetch other = Response status_code playlist_lines ->
      ~ (400 <= status_code < 600) ->
      let st := process_playlists fetch (before ++ url :: after) in
      In (url_filename other) (processed_files st) /\
      (exists d,
          In (url_filename other,
              join newline (processed_lines (scan_lines d playlist_lines)))
             (written st)) /\
      (forall line old_icon_url icon_path,
          In line playlist_lines ->
          Re.search line = Some (old_icon_url, icon_path) ->
          In old_icon_url (Dict.keys (original_icons st)) /\
          In (rect_url old_icon_url) (Dict.keys (original_icons st)))).
Proof.
  intros fetch before url after Hfail. split; [|split].
  - intros st. apply process_playlist_failed. exact Hfail.
  - unfold process_playlists. rewrite !fold_left_app. simpl.
    rewrite process_playlist_failed by exact Hfail. reflexivity.
  - intros other c ls Hin Hf Hc. unfold process_playlists.
    apply fold_playlists_fetched with (c := c); assumption.
Qed.

(** C10.  Two runs in the same world with two non-empty values of
    [GITHUB_REPOSITORY] end in the same state in every component: files
    written, icon dictionary with its destinations, result of the download
    phase, exit.  A missing or empty value raises [ValueError] before
    anything is written. *)
Theorem repository_name_only_gates : forall w r1 r2,
  r1 <> [] -> r2 <> [] ->
  main (Some r1) w = main (Some r2) w /\
  exit (main None w) = Raised ValueError /\
  exit (main (Some []) w) = Raised ValueError /\
  written (playlists (main None w)) = [].
Proof.
  intros w r1 r2 H1 H2.
  destruct r1 as [|c1 r1]; [contradiction|].
  destruct r2 as [|c2 r2]; [contradiction|].
  repeat split; reflexivity.
Qed.

(** ** When the download phase returns *)


(** Once the flag is seen set after a future is handed over, harvesting
    stops and the tally reached so far is kept. *)
Lemma harvest_loop_stops_on_flag : forall future_result i events total,
  harvest_loop future_result (Yields i true :: events) total =
  {| total_downloaded := total; outcome := Returned tt |}.
Proof. reflexivity. Qed.

(** The file names of the three configured sources. *)
Lemma playlist_file_names :
  map url_filename PLAYLIST_URLS =
  [lit "edem_epg_ico.m3u8"; lit "edem_epg_ico2.m3u8";
   lit "edem_epg_ico3.m3u8"].
Proof. reflexivity. Qed.

(** ** What holds for captured paths without [/img/] *)

Lemma replace_from_absent : forall old new s,
  contains old s = false -> replace_from old new 0 s = s.
Proof.
  intros old new. induction s as [|c s IH]; intros H.
  - reflexivity.
  - cbn [contains] in H. apply orb_false_iff in H. destruct H as [H1 H2].
    cbn [replace_from]. rewrite H1, (IH H2). reflexivity.
Qed.

(** When the captured path has no [/img/] in it, the key of the
    rectangular job is the matched URL with [/img2/] after the host. *)
Lemma rect_url_plain_path : forall scheme path,
  is_scheme scheme -> contains (lit "/img/") path = false ->
  rect_url (scheme ++ Re.host_img ++ path) =
  scheme ++ lit "://epg.one/img2/" ++ path.
Proof.
  intros scheme path Hs Hc. rewrite rect_url_matched by exact Hs.
  unfold rect_url at 1. unfold replace. cbn [lit list_ascii_of_string].
  rewrite replace_from_absent by exact Hc. reflexivity.
Qed.

(** ** Concrete instances *)

Lemma unmatched_line_unchanged_witness :
  (contains Re.attr line_plain = false /\
   processed_lines (scan_line empty_scan line_plain) = [line_plain] /\
   icons (scan_line empty_scan line_plain) = []) /\
  (contains Re.attr line_external = true /\
   Re.search line_external = None /\
   processed_lines (scan_line empty_scan line_external) = [line_external] /\
   icons (scan_line empty_scan line_external) = []).
Proof.
  split.
  - split; [reflexivity|].
    exact (proj1 (unmatched_line_unchanged empty_scan line_plain) eq_refl).
  - split; [reflexivity|]. split; [reflexivity|].
    exact (proj2 (unmatched_line_unchanged empty_scan line_external)
             eq_refl eq_refl).
Defined.

Lemma batches_partition_jobs_witness :
  2 < length (make_batches batch_size jobs_120) /\
  concat (make_batches batch_size jobs_120) = jobs_120 /\
  1 <= length (nth 2 (make_batches batch_size jobs_120) []) <= batch_size /\
  length (nth 1 (make_batches batch_size jobs_120) []) = batch_size.
Proof.
  assert (H1 : 1 < length (make_batches batch_size jobs_120))
    by (vm_compute; lia).
  assert (H2 : 2 < length (make_batches batch_size jobs_120))
    by (vm_compute; lia).
  split; [exact H2|]. split; [|split].
  - exact (proj1 (batches_partition_jobs jobs_120)).
  - exact (proj1 (proj2 (batches_partition_jobs jobs_120) 2 H2)).
  - exact (proj2 (proj2 (batches_partition_jobs jobs_120) 1 H1) H2).
Defined.

Lemma icon_failure_is_local_witness :
  is_timeout_at world_mkdir_fails job_sqr = false /\
  io_fails (icon_io world_mkdir_fails job_sqr) /\
  ~ io_fails (icon_io world_mkdir_fails job_rect) /\
  download_icon_batch world_mkdir_fails [job_sqr] = Returned 0 /\
  download_icon_batch world_mkdir_fails [job_sqr; job_rect] =
  download_icon_batch world_mkdir_fails [job_rect] /\
  download_icon_batch world_mkdir_fails [job_rect] = Returned 1 /\
  download_icon_batch world_mkdir_fails [job_sqr; job_rect] = Returned 1.
Proof.
  pose (T := icon_failure_is_local world_mkdir_fails).
  assert (Hio : io_fails (icon_io world_mkdir_fails job_sqr)).
  { left. exists OSError. reflexivity. }
  assert (Hok : ~ io_fails (icon_io world_mkdir_fails job_rect)).
  { intros H. apply (proj1 (proj2 (proj2 (proj2 T))) job_rect) in H.
    discriminate H. }
  assert (Hnil : download_icon_batch world_mkdir_fails [] = Returned 0)
    by reflexivity.
  split; [reflexivity|]. split; [exact Hio|]. split; [exact Hok|].
  split; [|split; [|split]].
  - exact (proj1 (proj1 (proj2 T) [] job_sqr [job_rect] eq_refl Hio)).
  - exact (proj2 (proj1 (proj2 T) [] job_sqr [job_rect] eq_refl Hio)).
  - exact (proj1 (proj2 (proj2 T)) job_rect [] 0 eq_refl Hok Hnil).
  - exact (proj2 (proj2 (proj2 (proj2 T))) [job_sqr; job_rect]
             (fun _ _ => eq_refl)).
Defined.

Lemma succeeded_count_bounded_and_exact_witness :
  NoDup (yielded (harvest world_quiet)) /\
  total_downloaded (run_download_worker world_quiet icons_x) <= 2 /\
  run_download_worker world_quiet icons_x =
  {| total_downloaded := 2; outcome := Returned tt |}.
Proof.
  assert (Hnd : NoDup (yielded (harvest world_quiet))).
  { simpl. constructor; [intros []|constructor]. }
  assert (Hord : exists order,
             Permutation order
               (seq 0 (length (make_batches batch_size (Dict.items icons_x))))
             /\ harvest world_quiet = map (fun i => Yields i false) order).
  { exists [0]. split; [apply Permutation_refl|reflexivity]. }
  split; [exact Hnd|]. split.
  - exact (proj1 (@succeeded_count_bounded_and_exact world_quiet icons_x Hnd)).
  - exact (proj2 (@succeeded_count_bounded_and_exact world_quiet icons_x Hnd)
             (fun _ => eq_refl) Hord).
Defined.

Lemma failed_source_skipped_others_kept_witness :
  fetch_fails (fetch_first_404 (lit "http://epg.one/edem_epg_ico.m3u8")) /\
  process_playlists fetch_first_404 PLAYLIST_URLS =
  process_playlists fetch_first_404 (skipn 1 PLAYLIST_URLS) /\
  In (lit "edem_epg_ico2.m3u8")
     (processed_files (process_playlists fetch_first_404 PLAYLIST_URLS)) /\
  In (lit "http://epg.one/img2/x.png")
     (Dict.keys
        (original_icons (process_playlists fetch_first_404 PLAYLIST_URLS))).
Proof.
  assert (Hfail : fetch_fails
                    (fetch_first_404 (lit "http://epg.one/edem_epg_ico.m3u8"))).
  { right. exists 404, []. split; [reflexivity|lia]. }
  assert (Hok : ~ (400 <= 200 < 600)) by lia.
  assert (Hin : In (lit "http://epg.one/edem_epg_ico2.m3u8")
                   ([] ++ lit "http://epg.one/edem_epg_ico.m3u8"
                       :: skipn 1 PLAYLIST_URLS)).
  { right. left. reflexivity. }
  pose (T := @failed_source_skipped_others_kept fetch_first_404 []
               (lit "http://epg.one/edem_epg_ico.m3u8")
               (skipn 1 PLAYLIST_URLS) Hfail).
  split; [exact Hfail|]. split; [exact (proj1 (proj2 T))|]. split.
  - exact (proj1 (proj2 (proj2 T) _ 200 [line_plain; line_x]
                    Hin eq_refl Hok)).
  - exact (proj2 (proj2 (proj2 (proj2 (proj2 T) _ 200 [line_plain; line_x]
                                  Hin eq_refl Hok))
                    line_x (lit "http://epg.one/img/x.png") (lit "x.png")
                    (or_intror (or_introl eq_refl)) eq_refl)).
Defined.

Lemma repository_name_only_gates_witness :
  lit "KocourKuba/epgone_mirror" <> [] /\ lit "someone/fork" <> [] /\
  main (Some (lit "KocourKuba/epgone_mirror")) world_quiet =
  main (Some (lit "someone/fork")) world_quiet.
Proof.
  assert (H1 : lit "KocourKuba/epgone_mirror" <> []) by discriminate.
  assert (H2 : lit "someone/fork" <> []) by discriminate.
  split; [exact H1|]. split; [exact H2|].
  exact (proj1 (@repository_name_only_gates world_quiet _ _ H1 H2)).
Defined.

(** * Further properties *)

(** ** Keys of the job set *)

Lemma scan_line_icons : forall st line,
  icons (scan_line st line) = apply_writes (icons st) (line_writes line).
Proof.
  intros st line. unfold line_writes.
  destruct (Re.search line) as [[old path]|] eqn:H.
  - rewrite (scan_line_matched st line H). reflexivity.
  - unfold scan_line. rewrite H. destruct (contains Re.attr line); reflexivity.
Qed.

Lemma scan_line_lines : forall st line,
  processed_lines (scan_line st line) =
  processed_lines st ++ [rewritten_line line].
Proof.
  intros st line. unfold rewritten_line.
  destruct (Re.search line) as [[old path]|] eqn:H.
  - rewrite (scan_line_matched st line H). reflexivity.
  - unfold scan_line. rewrite H. destruct (contains Re.attr line); reflexivity.
Qed.

Lemma line_writes_on_epg_one : forall line k v,
  In (k, v) (line_writes line) -> on_epg_one k.
Proof.
  intros line k v H. unfold line_writes in H.
  destruct (Re.search line) as [[old path]|] eqn:S; [|destruct H].
  destruct (search_inv line S) as (pre & scheme & rest & Hs & Ho & _).
  destruct H as [H | [H | []]]; inversion H; subst k v; clear H;
    exists scheme.
  - exists path. split; [exact Hs|]. left. exact Ho.
  - exists (rect_url path). split; [exact Hs|]. right.
    rewrite Ho. apply rect_url_matched. exact Hs.
Qed.

Lemma apply_writes_keys : forall ws d k,
  In k (Dict.keys (apply_writes d ws)) ->
  In k (Dict.keys d) \/ In k (map fst ws).
Proof.
  induction ws as [|[k0 v0] ws IH]; intros d k H; simpl in *.
  - left. exact H.
  - apply IH in H. destruct H as [H | H]; [|right; right; exact H].
    apply set_keys_in in H. destruct H as [-> | H]; [right; left|left]; auto.
Qed.

Lemma scan_line_on_epg_one : forall st line,
  Forall on_epg_one (Dict.keys (icons st)) ->
  Forall on_epg_one (Dict.keys (icons (scan_line st line))).
Proof.
  intros st line H. apply Forall_forall. intros k Hk.
  rewrite scan_line_icons in Hk. apply apply_writes_keys in Hk.
  destruct Hk as [Hk | Hk].
  - rewrite Forall_forall in H. apply H. exact Hk.
  - apply in_map_iff in Hk. destruct Hk as ([k' v] & <- & Hin).
    eapply line_writes_on_epg_one. exact Hin.
Qed.

Lemma fold_scan_on_epg_one : forall ls st,
  Forall on_epg_one (Dict.keys (icons st)) ->
  Forall on_epg_one (Dict.keys (icons (fold_left scan_line ls st))).
Proof.
  induction ls as [|l ls IH]; intros st H; simpl.
  - exact H.
  - apply IH. apply scan_line_on_epg_one. exact H.
Qed.

Lemma fold_playlists_on_epg_one : forall fetch urls st,
  Forall on_epg_one (Dict.keys (original_icons st)) ->
  Forall on_epg_one
    (Dict.keys (original_icons (fold_left (process_playlist fetch) urls st))).
Proof.
  intros fetch. induction urls as [|u urls IH]; intros st H; simpl.
  - exact H.
  - apply IH. unfold process_playlist.
    destruct (fetch_lines (fetch u)); [|exact H].
    cbn [original_icons]. unfold scan_lines.
    apply fold_scan_on_epg_one. exact H.
Qed.

(** X2.  Every job that [main] hands to the download phase has a source
    URL on [epg.one], under [/img/] or [/img2/], whatever the playlists
    contain. *)
Theorem jobs_only_from_epg_one : forall fetch urls job,
  In job (Dict.items (original_icons (process_playlists fetch urls))) ->
  on_epg_one (fst job).
Proof.
  intros fetch urls job H.
  assert (F : Forall on_epg_one
                (Dict.keys (original_icons (process_playlists fetch urls)))).
  { unfold process_playlists. apply fold_playlists_on_epg_one. constructor. }
  rewrite Forall_forall in F. apply F.
  unfold Dict.keys. apply in_map. exact H.
Qed.

(** ** Destinations *)

Lemma matched_url_path : forall s1 s2 p1 p2,
  is_scheme s1 -> is_scheme s2 ->
  s1 ++ Re.host_img ++ p1 = s2 ++ Re.host_img ++ p2 -> p1 = p2.
Proof.
  intros s1 s2 p1 p2 [-> | ->] [-> | ->] E; simpl in E;
    try discriminate E; injection E as E; exact E.
Qed.

Lemma rect_url_not_square : forall s1 s2 p1 p2,
  is_scheme s1 -> is_scheme s2 ->
  rect_url (s1 ++ Re.host_img ++ p1) <> s2 ++ Re.host_img ++ p2.
Proof.
  intros s1 s2 p1 p2 H1 H2 E. rewrite rect_url_matched in E by exact H1.
  destruct H1 as [-> | ->]; destruct H2 as [-> | ->]; discriminate E.
Qed.

Lemma get_in_keys : forall (V : Type) (d : Dict.dict V) k,
  In k (Dict.keys d) -> exists v, Dict.get d k = Some v.
Proof.
  induction d as [|[k0 v0] d IH]; intros k H; simpl in *.
  - destruct H.
  - destruct (Str.eqb k k0) eqn:E; [exists v0; reflexivity|].
    destruct H as [-> | H]; [|apply IH; exact H].
    rewrite str_eqb_refl in E. discriminate.
Qed.

Lemma scan_line_square_values : forall st line,
  square_values (icons st) -> square_values (icons (scan_line st line)).
Proof.
  intros st line H. unfold scan_line.
  destruct (contains Re.attr line); [|exact H].
  destruct (Re.search line) as [[old path]|] eqn:S; [|exact H].
  cbn [icons].
  destruct (search_inv line S) as (pre & scheme & rest & Hs & Ho & _).
  intros scheme0 path0 v Hs0 Hg.
  rewrite get_set_other in Hg
    by (intros E; symmetry in E; subst old;
        exact (rect_url_not_square path path0 Hs Hs0 E)).
  destruct (Str.eqb (scheme0 ++ Re.host_img ++ path0) old) eqn:E.
  - apply str_eqb_eq in E. rewrite E, get_set_same in Hg.
    injection Hg as <-. f_equal. symmetry.
    apply (@matched_url_path scheme0 scheme path0 path Hs0 Hs).
    rewrite E. exact Ho.
  - rewrite get_set_other in Hg.
    + exact (H scheme0 path0 v Hs0 Hg).
    + intros E'. rewrite E', str_eqb_refl in E. discriminate.
Qed.

Lemma fold_scan_square_values : forall ls st,
  square_values (icons st) ->
  square_values (icons (fold_left scan_line ls st)).
Proof.
  induction ls as [|l ls IH]; intros st H; simpl.
  - exact H.
  - apply IH. apply scan_line_square_values. exact H.
Qed.

Lemma fold_playlists_square_values : forall fetch urls st,
  square_values (original_icons st) ->
  square_values
    (original_icons (fold_left (process_playlist fetch) urls st)).
Proof.
  intros fetch. induction urls as [|u urls IH]; intros st H; simpl.
  - exact H.
  - apply IH. unfold process_playlist.
    destruct (fetch_lines (fetch u)); [|exact H].
    cbn [original_icons]. unfold scan_lines.
    apply fold_scan_square_values. exact H.
Qed.

(** X3.  For every line of a served playlist in which the pattern is
    found, the job kept for the matched URL has the square directory
    joined with the captured path as its destination, whatever else the
    playlists contain and in whatever order. *)
Theorem square_job_destination :
  forall fetch urls url status_code playlist_lines line old_icon_url icon_path,
    In url urls ->
    fetch url = Response status_code playlist_lines ->
    ~ (400 <= status_code < 600) ->
    In line playlist_lines ->
    Re.search line = Some (old_icon_url, icon_path) ->
    Dict.get (original_icons (process_playlists fetch urls)) old_icon_url =
    Some (div ICONS_SQR_DIR icon_path).
Proof.
  intros fetch urls url c ls line old path Hu Hf Hc Hl Hs.
  set (st0 := {| original_icons := []; written := [];
                 processed_files := [] |}).
  destruct (@fold_playlists_fetched fetch urls st0 url c ls Hu Hf Hc)
    as (_ & _ & Hk).
  destruct (Hk line old path Hl Hs) as [Hin _].
  destruct (get_in_keys _ _ Hin) as [v Hv].
  unfold process_playlists. fold st0. rewrite Hv. f_equal.
  destruct (search_inv line Hs) as (pre & scheme & rest & Hsc & Ho & _).
  assert (Sq : square_values
                 (original_icons
                    (fold_left (process_playlist fetch) urls st0))).
  { apply fold_playlists_square_values. intros ? ? ? _ H. discriminate H. }
  apply (Sq scheme path v Hsc). rewrite <- Ho. exact Hv.
Qed.

(** X4.  When the captured path has no [/img/] in it, the rectangular job
    of a matched line is keyed by the matched URL with [/img2/] after the
    host and goes to the rectangular directory joined with the path. *)
Theorem rect_job_for_plain_path : forall st line old_icon_url icon_path,
  Re.search line = Some (old_icon_url, icon_path) ->
  contains (lit "/img/") icon_path = false ->
  exists scheme,
    is_scheme scheme /\
    old_icon_url = scheme ++ lit "://epg.one/img/" ++ icon_path /\
    rect_url old_icon_url = scheme ++ lit "://epg.one/img2/" ++ icon_path /\
    Dict.get (icons (scan_line st line))
             (scheme ++ lit "://epg.one/img2/" ++ icon_path) =
    Some (div ICONS_RECT_DIR icon_path).
Proof.
  intros st line old path Hs Hc.
  destruct (search_inv line Hs) as (pre & scheme & rest & Hsc & Ho & _).
  assert (Hr : rect_url old = scheme ++ lit "://epg.one/img2/" ++ path).
  { rewrite Ho. apply rect_url_plain_path; assumption. }
  exists scheme. split; [exact Hsc|]. split; [exact Ho|].
  split; [exact Hr|].
  rewrite (scan_line_matched st line Hs). cbn [icons].
  rewrite <- Hr. apply get_set_same.
Qed.

Lemma div_absolute : forall dir p,
  div dir (slash :: p) = parse (slash :: p).
Proof. reflexivity. Qed.

Lemma parse_absolute_root : forall p, root (parse (slash :: p)) <> [].
Proof.
  intros p. unfold parse, splitroot. rewrite Ascii.eqb_refl.
  destruct p as [|c2 p2]; [discriminate|].
  destruct (Ascii.eqb c2 slash); [|discriminate].
  destruct p2 as [|c3 p3]; [discriminate|].
  destruct (Ascii.eqb c3 slash); discriminate.
Qed.

(** X5.  When the captured path begins with a slash, both jobs of the
    line get the path itself, an absolute path, as destination: the icon
    directories are discarded by the join, and the two jobs write the same
    file. *)
Theorem absolute_path_leaves_icon_dirs : forall st line old_icon_url p,
  Re.search line = Some (old_icon_url, slash :: p) ->
  root (parse (slash :: p)) <> [] /\
  Dict.get (icons (scan_line st line)) old_icon_url =
  Some (parse (slash :: p)) /\
  Dict.get (icons (scan_line st line)) (rect_url old_icon_url) =
  Some (parse (slash :: p)).
Proof.
  intros st line old p Hs.
  destruct (search_inv line Hs) as (pre & scheme & rest & Hsc & Ho & _).
  rewrite (scan_line_matched st line Hs). cbn [icons].
  rewrite !div_absolute.
  split; [apply parse_absolute_root|]. split.
  - rewrite get_set_other, get_set_same; [reflexivity|].
    intros E. symmetry in E. revert E. rewrite Ho.
    apply rect_url_differs. exact Hsc.
  - apply get_set_same.
Qed.

Lemma split_not_nil : forall sep s, split sep s <> [].
Proof.
  intros sep s. destruct s as [|c s]; simpl.
  - discriminate.
  - destruct (Ascii.eqb c sep); [discriminate|].
    destruct (split sep s); discriminate.
Qed.

(** Splitting at a separator and joining with it again gives the text
    back. *)
Lemma join_split : forall sep s, join [sep] (split sep s) = s.
Proof.
  intros sep. induction s as [|c s IH].
  - reflexivity.
  - cbn [split]. destruct (Ascii.eqb c sep) eqn:E.
    + apply Ascii.eqb_eq in E. subst c.
      destruct (split sep s) as [|w ws] eqn:S.
      * exfalso. exact (split_not_nil sep s S).
      * cbn [join]. cbn [join] in IH. rewrite IH. reflexivity.
    + destruct (split sep s) as [|w ws] eqn:S.
      * exfalso. exact (split_not_nil sep s S).
      * destruct ws as [|w' ws']; cbn [join] in *.
        -- rewrite IH. reflexivity.
        -- rewrite <- IH. reflexivity.
Qed.

Lemma filter_all : forall (B : Type) (f : B -> bool) l,
  forallb f l = true -> filter f l = l.
Proof.
  intros B f. induction l as [|x l IH]; intros H; simpl in *.
  - reflexivity.
  - apply andb_true_iff in H. destruct H as [H1 H2].
    rewrite H1, (IH H2). reflexivity.
Qed.

Lemma clean_path_head : forall p,
  clean_path p = true ->
  exists c p', p = c :: p' /\ Ascii.eqb c slash = false.
Proof.
  intros p H. unfold clean_path in H. destruct p as [|c p'].
  - discriminate H.
  - exists c, p'. split; [reflexivity|].
    destruct (Ascii.eqb c slash) eqn:E; [|reflexivity].
    cbn [split] in H. rewrite E in H. discriminate H.
Qed.

Lemma join_cons_split : forall d sep s,
  join [sep] (d :: split sep s) = d ++ sep :: s.
Proof.
  intros d sep s. destruct (split sep s) as [|w ws] eqn:S.
  - exfalso. exact (split_not_nil sep s S).
  - change (join [sep] (d :: w :: ws))
      with (d ++ [sep] ++ join [sep] (w :: ws)).
    rewrite <- S, join_split. reflexivity.
Qed.

Lemma startswith_slash_false : forall c p,
  Ascii.eqb c slash = false -> startswith [slash] (c :: p) = false.
Proof.
  intros c p H. cbn [startswith].
  destruct (Ascii.eqb slash c) eqn:E; [|reflexivity].
  apply Ascii.eqb_eq in E. subst c. rewrite Ascii.eqb_refl in H.
  discriminate H.
Qed.

(** X6.  A captured path whose components are all non-empty and other
    than a single dot is kept as it is: the destinations are [img/] and
    [img2/] followed by the path. *)
Theorem clean_path_destination : forall icon_path,
  clean_path icon_path = true ->
  to_str (div ICONS_SQR_DIR icon_path) = lit "img/" ++ icon_path /\
  to_str (div ICONS_RECT_DIR icon_path) = lit "img2/" ++ icon_path.
Proof.
  intros path H.
  destruct (clean_path_head path H) as (c & p' & Hp & Hc).
  unfold clean_path in H.
  assert (Hj : forall dir,
             startswith [slash] dir = false ->
             keep_part dir = true ->
             ~ In slash dir ->
             forall rest, split slash (dir ++ slash :: rest)
                          = dir :: split slash rest).
  { intros dir _ _. induction dir as [|a dir IH]; intros Hn rest.
    - cbn [app split]. rewrite Ascii.eqb_refl. reflexivity.
    - cbn [app split].
      destruct (Ascii.eqb a slash) eqn:E.
      + apply Ascii.eqb_eq in E. subst a. exfalso. apply Hn. left.
        reflexivity.
      + rewrite IH; [reflexivity|]. intros Hin. apply Hn. right. exact Hin. }
  assert (Hd : forall dir,
             to_str (parse dir) = dir ->
             startswith [slash] dir = false ->
             keep_part dir = true ->
             ~ In slash dir ->
             last dir slash <> slash ->
             to_str (div (parse dir) path) = dir ++ slash :: path).
  { intros dir Hts Hs Hk Hn Hl. unfold div. rewrite Hts.
    assert (Hsp : startswith [slash] path = false)
      by (rewrite Hp; apply startswith_slash_false; exact Hc).
    assert (Hpj : posix_join dir path = dir ++ slash :: path).
    { unfold posix_join. rewrite Hsp.
      destruct dir as [|a dir' _] using rev_ind; [discriminate Hk|].
      rewrite rev_app_distr. cbn [rev app].
      rewrite last_last in Hl.
      destruct (Ascii.eqb a slash) eqn:E; [|reflexivity].
      apply Ascii.eqb_eq in E. contradiction. }
    rewrite Hpj. unfold parse.
    assert (Hroot : splitroot (dir ++ slash :: path)
                    = ([], dir ++ slash :: path)).
    { destruct dir as [|a dir']; [discriminate Hk|].
      cbn [app splitroot]. cbn [startswith] in Hs.
      destruct (Ascii.eqb a slash) eqn:E; [|reflexivity].
      apply Ascii.eqb_eq in E. subst a. rewrite Ascii.eqb_refl in Hs.
      discriminate Hs. }
    rewrite Hroot, Hj by assumption.
    cbn [filter]. rewrite Hk, (filter_all _ _ H).
    unfold to_str. cbn [root tail app]. rewrite join_cons_split.
    destruct dir; [discriminate Hk|reflexivity]. }
  split.
  - apply (Hd (lit "img")); try reflexivity.
    + intros Hin. simpl in Hin.
      repeat (destruct Hin as [Hin | Hin]; [discriminate Hin|]). exact Hin.
    + discriminate.
  - apply (Hd (lit "img2")); try reflexivity.
    + intros Hin. simpl in Hin.
      repeat (destruct Hin as [Hin | Hin]; [discriminate Hin|]). exact Hin.
    + discriminate.
Qed.

(** ** The line loop and the files written *)

Lemma set_length : forall (V : Type) (d : Dict.dict V) k v,
  length (Dict.set d k v) <= S (length d).
Proof.
  induction d as [|[k0 v0] d IH]; intros k v; simpl.
  - lia.
  - destruct (Str.eqb k k0); simpl; [lia|]. specialize (IH k v). lia.
Qed.

Lemma search_needs_attr : forall line,
  contains Re.attr line = false -> Re.search line = None.
Proof.
  intros line H. destruct (Re.search line) as [[old path]|] eqn:S;
    [|reflexivity].
  destruct (search_inv line S) as (pre & scheme & rest & _ & _ & _ & _ & Hl).
  subst line. rewrite contains_app in H. discriminate H.
Qed.

Lemma scan_line_counts : forall st l,
  replacements_count (scan_line st l) =
  replacements_count st + (if matched l then 1 else 0) /\
  not_replaced_count (scan_line st l) =
  not_replaced_count st +
  (if contains Re.attr l && negb (matched l) then 1 else 0) /\
  length (icons (scan_line st l)) <=
  length (icons st) + (if matched l then 2 else 0).
Proof.
  intros st l. unfold scan_line, matched.
  destruct (contains Re.attr l) eqn:C.
  - destruct (Re.search l) as [[old path]|];
      cbn [replacements_count not_replaced_count icons andb negb].
    + split; [lia|]. split; [lia|].
      pose proof (set_length (icons st) old (div ICONS_SQR_DIR path)).
      pose proof (set_length
                    (Dict.set (icons st) old (div ICONS_SQR_DIR path))
                    (rect_url old) (div ICONS_RECT_DIR path)).
      lia.
    + split; [lia|]. split; lia.
  - rewrite (search_needs_attr l C).
    cbn [replacements_count not_replaced_count icons andb negb].
    split; [lia|]. split; lia.
Qed.

Lemma filter_length_cons : forall (B : Type) (f : B -> bool) x l,
  length (filter f (x :: l)) = (if f x then 1 else 0) + length (filter f l).
Proof.
  intros B f x l. cbn [filter]. destruct (f x); reflexivity.
Qed.

Lemma fold_scan_accounting : forall ls st,
  let sc := fold_left scan_line ls st in
  processed_lines sc = processed_lines st ++ map rewritten_line ls /\
  replacements_count sc =
  replacements_count st + length (filter matched ls) /\
  not_replaced_count sc =
  not_replaced_count st +
  length (filter (fun l => contains Re.attr l && negb (matched l)) ls) /\
  length (icons sc) <= length (icons st) + 2 * length (filter matched ls).
Proof.
  induction ls as [|l ls IH]; intros st; cbn [fold_left].
  - simpl. rewrite app_nil_r. repeat split; lia.
  - destruct (IH (scan_line st l)) as (I1 & I2 & I3 & I4).
    destruct (scan_line_counts st l) as (C1 & C2 & C3).
    cbv zeta. rewrite I1, I2, I3, !filter_length_cons.
    rewrite scan_line_lines, <- app_assoc. cbn [map app].
    split; [reflexivity|]. split; [lia|]. split; [lia|].
    destruct (matched l); lia.
Qed.

(** X7.  The line loop appends exactly one line per input line, and that
    line depends on the input line alone; it counts as replaced the lines
    in which the pattern is found and as not replaced the other lines
    that carry the attribute; it adds at most two jobs per replaced
    line. *)
Theorem line_loop_accounting : forall d playlist_lines,
  let sc := scan_lines d playlist_lines in
  processed_lines sc = map rewritten_line playlist_lines /\
  length (processed_lines sc) = length playlist_lines /\
  replacements_count sc = length (filter matched playlist_lines) /\
  not_replaced_count sc =
  length (filter (fun l => contains Re.attr l && negb (matched l))
                 playlist_lines) /\
  replacements_count sc + not_replaced_count sc =
  length (filter (contains Re.attr) playlist_lines) /\
  length (Dict.items (icons sc)) <= length d + 2 * replacements_count sc.
Proof.
  intros d ls sc. subst sc. unfold scan_lines.
  destruct (fold_scan_accounting ls
              {| icons := d; replacements_count := 0;
                 not_replaced_count := 0; processed_lines := [] |})
    as (I1 & I2 & I3 & I4).
  cbv zeta in *. cbn [processed_lines replacements_count not_replaced_count
                      icons app] in *.
  rewrite I1, I2, I3. rewrite length_map.
  repeat split; try lia.
  - clear. induction ls as [|l ls IH]; [reflexivity|].
    rewrite !filter_length_cons. unfold matched at 1 3.
    destruct (contains Re.attr l) eqn:C.
    + destruct (Re.search l); cbn [andb negb]; lia.
    + rewrite (search_needs_attr l C). cbn [andb negb]. lia.
  - unfold Dict.items. lia.
Qed.

Lemma fold_playlists_files : forall fetch urls st,
  let st' := fold_left (process_playlist fetch) urls st in
  written st' = written st ++ flat_map (file_of fetch) urls /\
  processed_files st' =
  processed_files st ++ map fst (flat_map (file_of fetch) urls).
Proof.
  intros fetch. induction urls as [|u urls IH]; intros st; cbn [fold_left].
  - simpl. rewrite !app_nil_r. split; reflexivity.
  - destruct (IH (process_playlist fetch st u)) as [I1 I2].
    cbv zeta. rewrite I1, I2. clear I1 I2.
    cbn [flat_map]. rewrite map_app, !app_assoc.
    unfold process_playlist, file_of.
    destruct (fetch_lines (fetch u)) as [ls|e].
    + cbn [written processed_files map fst].
      unfold scan_lines.
      destruct (fold_scan_accounting ls
                  {| icons := original_icons st; replacements_count := 0;
                     not_replaced_count := 0; processed_lines := [] |})
        as [L _].
      cbv zeta in L. cbn [processed_lines app] in L. rewrite L.
      split; reflexivity.
    + cbn [map]. rewrite !app_nil_r. split; reflexivity.
Qed.

(** X8.  The files written by the playlist loop are, in the order of the
    sources, one file per served source, named after the source and
    holding its rewritten lines joined by newlines; a source that fails
    contributes nothing.  The content of a file depends on the lines of
    its own source alone. *)
Theorem files_written_per_served_source : forall fetch urls,
  written (process_playlists fetch urls) = flat_map (file_of fetch) urls /\
  processed_files (process_playlists fetch urls) =
  map fst (written (process_playlists fetch urls)).
Proof.
  intros fetch urls. unfold process_playlists.
  destruct (fold_playlists_files fetch urls
              {| original_icons := []; written := [];
                 processed_files := [] |}) as [W P].
  cbv zeta in *. cbn [written processed_files app] in *.
  rewrite P, W. split; reflexivity.
Qed.

Lemma fold_playlists_all_fail : forall fetch urls st,
  (forall url, In url urls -> fetch_fails (fetch url)) ->
  fold_left (process_playlist fetch) urls st = st.
Proof.
  intros fetch. induction urls as [|u urls IH]; intros st H; simpl.
  - reflexivity.
  - rewrite process_playlist_failed by (apply H; left; reflexivity).
    apply IH. intros url Hin. apply H. right. exact Hin.
Qed.

(** ** The batch function and the harvest loop *)

Lemma batch_loop_stops : forall w before job after success,
  is_timeout_at w job = true ->
  batch_loop w (before ++ job :: after) success =
  batch_loop w before success.
Proof.
  intros w before job after success Hf. revert success.
  induction before as [|b before IH]; intros success.
  - cbn [app batch_loop]. rewrite Hf. reflexivity.
  - cbn [app batch_loop].
    destruct (is_timeout_at w b); [reflexivity|].
    destruct (try_except _ _); cbn [bind]; [apply IH|reflexivity].
Qed.

(** X10.  [download_icon_batch] never reports more successes than the
    batch has jobs; and once the flag is seen set before a job, that job
    and all jobs after it are left out: the result is that of the jobs
    before it. *)
Theorem batch_stops_at_flag : forall w,
  (forall batch_items, exists n,
      download_icon_batch w batch_items = Returned n /\
      n <= length batch_items) /\
  (forall before job after,
      is_timeout_at w job = true ->
      download_icon_batch w (before ++ job :: after) =
      download_icon_batch w before).
Proof.
  intros w. split.
  - intros items. destruct (batch_loop_returns w items 0) as (n & Hn & Hb).
    exists n. split; [exact Hn|lia].
  - intros before job after Hf. apply batch_loop_stops. exact Hf.
Qed.

Lemma harvest_loop_raises_shape : forall future_result events total e,
  outcome (harvest_loop future_result events total) = Raised e ->
  exists pre post,
    events = pre ++ WaitTimeout :: post /\ all_harvested pre.
Proof.
  intros fr. induction events as [|ev events IH]; intros total e H.
  - discriminate H.
  - destruct ev as [i flag|].
    + cbn [harvest_loop] in H. destruct flag; [discriminate H|].
      assert (Hx : exists total',
                 outcome (harvest_loop fr events total') = Raised e).
      { destruct (fr i) as [n|[]]; eexists; exact H. }
      destruct Hx as [total' Hx].
      destruct (IH _ _ Hx) as (pre & post & -> & Hp).
      exists (Yields i false :: pre), post. split; [reflexivity|].
      constructor; [exists i; reflexivity|exact Hp].
    + exists [], events. split; [reflexivity|constructor].
Qed.

Lemma harvest_loop_raises_at : forall future_result pre post total,
  all_harvested pre ->
  outcome (harvest_loop future_result (pre ++ WaitTimeout :: post) total) =
  Raised TimeoutError.
Proof.
  intros fr pre post total H. revert total.
  induction H as [|ev pre [i ->] _ IH]; intros total.
  - reflexivity.
  - cbn [app harvest_loop]. destruct (fr i) as [n|[]]; apply IH.
Qed.

(** X11.  [run_download_worker] raises exactly when the wait of the
    iterator runs out before the flag has been seen set after a future,
    and the exception is then [TimeoutError]; in every other case it
    returns. *)
Theorem download_phase_raises_iff : forall w icons,
  (forall e,
      outcome (run_download_worker w icons) = Raised e <->
      e = TimeoutError /\
      exists pre post,
        harvest w = pre ++ WaitTimeout :: post /\ all_harvested pre) /\
  (outcome (run_download_worker w icons) = Returned tt \/
   outcome (run_download_worker w icons) = Raised TimeoutError).
Proof.
  intros w icons. unfold run_download_worker.
  set (fr := fun i => download_icon_batch w _). split.
  - intros e. split.
    + intros H. split.
      * apply harvest_loop_raises in H. destruct H as [H _]. exact H.
      * eapply harvest_loop_raises_shape. exact H.
    + intros (-> & pre & post & -> & Hp).
      apply harvest_loop_raises_at. exact Hp.
  - destruct (outcome (harvest_loop fr (harvest w) 0)) as [[]|e] eqn:E.
    + left. reflexivity.
    + right. apply harvest_loop_raises in E. destruct E as [-> _].
      reflexivity.
Qed.

(** X12.  Once the flag is seen set after a future is handed over, the
    loop ends as if the iterator were exhausted at that point: what the
    iterator would have done afterwards has no effect on the tally or on
    the outcome. *)
Theorem harvest_ends_at_flag : forall future_result pre i post total,
  harvest_loop future_result (pre ++ Yields i true :: post) total =
  harvest_loop future_result pre total.
Proof.
  intros fr. induction pre as [|ev pre IH]; intros i post total.
  - reflexivity.
  - destruct ev as [j flag|]; cbn [app harvest_loop]; [|reflexivity].
    destruct flag; [reflexivity|].
    destruct (fr j) as [n|[]]; apply IH.
Qed.

(** X15.  When the flag is not seen set and the wait does not run out,
    the tally and the outcome do not depend on the order in which the
    pool completes the batches. *)
Theorem harvest_order_irrelevant : forall future_result order1 order2 total,
  Permutation order1 order2 ->
  harvest_loop future_result (map (fun i => Yields i false) order1) total =
  harvest_loop future_result (map (fun i => Yields i false) order2) total.
Proof.
  intros fr order1 order2 total P. revert total.
  induction P as [|x l l' P IH|x y l|l l' l'' P1 IH1 P2 IH2]; intros total.
  - reflexivity.
  - cbn [map harvest_loop]. destruct (fr x) as [n|[]]; apply IH.
  - cbn [map harvest_loop].
    destruct (fr x) as [n|[]]; destruct (fr y) as [m|[]]; try reflexivity.
    replace (total + m + n) with (total + n + m) by lia. reflexivity.
  - rewrite IH1. apply IH2.
Qed.

(** ** Scanning the same lines again *)

Lemma set_keys_present : forall (V : Type) (d : Dict.dict V) k v,
  In k (Dict.keys d) -> Dict.keys (Dict.set d k v) = Dict.keys d.
Proof.
  induction d as [|[k0 v0] d IH]; intros k v H; simpl in *.
  - destruct H.
  - destruct (Str.eqb k k0) eqn:E; simpl; [reflexivity|].
    f_equal. apply IH. destruct H as [-> | H]; [|exact H].
    rewrite str_eqb_refl in E. discriminate.
Qed.

Lemma get_not_in_keys : forall (V : Type) (d : Dict.dict V) k,
  ~ In k (Dict.keys d) -> Dict.get d k = None.
Proof.
  induction d as [|[k0 v0] d IH]; intros k H; simpl in *.
  - reflexivity.
  - destruct (Str.eqb k k0) eqn:E.
    + apply str_eqb_eq in E. subst k0. exfalso. apply H. left. reflexivity.
    + apply IH. intros Hin. apply H. right. exact Hin.
Qed.

(** Two dictionaries with the same keys in the same order, none twice,
    and the same value for every key are equal. *)
Lemma dict_ext : forall (V : Type) (d1 d2 : Dict.dict V),
  NoDup (Dict.keys d1) ->
  Dict.keys d1 = Dict.keys d2 ->
  (forall k, Dict.get d1 k = Dict.get d2 k) ->
  d1 = d2.
Proof.
  induction d1 as [|[k1 v1] d1 IH]; intros d2 Hn Hk Hg.
  - destruct d2; [reflexivity|discriminate Hk].
  - destruct d2 as [|[k2 v2] d2]; [discriminate Hk|].
    simpl in Hk. injection Hk as -> Hk.
    inversion Hn as [|? ? Hnot Hn']; subst.
    pose proof (Hg k2) as H2. simpl in H2. rewrite str_eqb_refl in H2.
    injection H2 as ->. f_equal. apply IH; [exact Hn'|exact Hk|].
    intros k. destruct (Str.eqb k k2) eqn:E.
    + apply str_eqb_eq in E. subst k.
      rewrite !get_not_in_keys; [reflexivity| |exact Hnot].
      unfold Dict.keys in *. rewrite <- Hk. exact Hnot.
    + specialize (Hg k). simpl in Hg. rewrite E in Hg. exact Hg.
Qed.

Lemma apply_writes_keys_nodup : forall ws d,
  NoDup (Dict.keys d) -> NoDup (Dict.keys (apply_writes d ws)).
Proof.
  induction ws as [|[k v] ws IH]; intros d H; simpl.
  - exact H.
  - apply IH. apply set_keys_nodup. exact H.
Qed.

Lemma apply_writes_keys_mono : forall ws d k,
  In k (Dict.keys d) -> In k (Dict.keys (apply_writes d ws)).
Proof.
  induction ws as [|[k0 v0] ws IH]; intros d k H; simpl.
  - exact H.
  - apply IH. apply set_keys_in. right. exact H.
Qed.

Lemma apply_writes_keys_written : forall ws d k,
  In k (map fst ws) -> In k (Dict.keys (apply_writes d ws)).
Proof.
  induction ws as [|[k0 v0] ws IH]; intros d k H; simpl in *.
  - destruct H.
  - destruct H as [-> | H].
    + apply apply_writes_keys_mono. apply set_keys_in. left. reflexivity.
    + apply IH. exact H.
Qed.

Lemma apply_writes_keys_stay : forall ws d,
  (forall k, In k (map fst ws) -> In k (Dict.keys d)) ->
  Dict.keys (apply_writes d ws) = Dict.keys d.
Proof.
  induction ws as [|[k0 v0] ws IH]; intros d H; simpl in *.
  - reflexivity.
  - rewrite IH.
    + apply set_keys_present. apply H. left. reflexivity.
    + intros k Hk. apply set_keys_in. right. apply H. right. exact Hk.
Qed.

Lemma apply_writes_app : forall ws1 ws2 d,
  apply_writes d (ws1 ++ ws2) = apply_writes (apply_writes d ws1) ws2.
Proof. intros ws1 ws2 d. unfold apply_writes. apply fold_left_app. Qed.

(** The value of a key after a sequence of assignments is the one of the
    last assignment to it, or the old value when there is none. *)
Lemma apply_writes_get : forall ws d k,
  Dict.get (apply_writes d ws) k =
  match Dict.get (rev ws) k with
  | Some v => Some v
  | None => Dict.get d k
  end.
Proof.
  induction ws as [|[k0 v0] ws IH] using rev_ind; intros d k.
  - reflexivity.
  - rewrite apply_writes_app, rev_app_distr. cbn [rev app apply_writes
      fold_left fst snd Dict.get].
    destruct (Str.eqb k k0) eqn:E.
    + apply str_eqb_eq in E. subst k0. apply get_set_same.
    + rewrite get_set_other.
      * apply IH.
      * intros E'. subst k0. rewrite str_eqb_refl in E. discriminate.
Qed.

Lemma apply_writes_twice : forall ws d,
  NoDup (Dict.keys d) ->
  apply_writes (apply_writes d ws) ws = apply_writes d ws.
Proof.
  intros ws d Hn. apply dict_ext.
  - apply apply_writes_keys_nodup. apply apply_writes_keys_nodup. exact Hn.
  - apply apply_writes_keys_stay. intros k Hk.
    apply apply_writes_keys_written. exact Hk.
  - intros k. rewrite (apply_writes_get ws (apply_writes d ws)).
    rewrite (apply_writes_get ws d).
    destruct (Dict.get (rev ws) k); reflexivity.
Qed.

Lemma fold_scan_icons : forall ls st,
  icons (fold_left scan_line ls st) =
  apply_writes (icons st) (flat_map line_writes ls).
Proof.
  induction ls as [|l ls IH]; intros st; cbn [fold_left flat_map].
  - reflexivity.
  - rewrite IH, scan_line_icons, apply_writes_app. reflexivity.
Qed.

(** X16.  Scanning the same lines a second time changes nothing in the
    job dictionary: keys, order and destinations stay as the first scan
    left them. *)
Theorem rescan_changes_nothing : forall d playlist_lines,
  NoDup (Dict.keys d) ->
  icons (scan_lines (icons (scan_lines d playlist_lines)) playlist_lines) =
  icons (scan_lines d playlist_lines).
Proof.
  intros d ls Hn. unfold scan_lines. rewrite !fold_scan_icons.
  cbn [icons]. apply apply_writes_twice. exact Hn.
Qed.

(** X17.  After the lines of a playlist are scanned, the destination kept
    for a key is the one of the last assignment that the lines make to
    it; keys that the lines do not assign keep what they had. *)
Theorem last_assignment_wins : forall d playlist_lines k,
  Dict.get (icons (scan_lines d playlist_lines)) k =
  match Dict.get (rev (flat_map line_writes playlist_lines)) k with
  | Some dest => Some dest
  | None => Dict.get d k
  end.
Proof.
  intros d ls k. unfold scan_lines. rewrite fold_scan_icons.
  cbn [icons]. apply apply_writes_get.
Qed.

(** ** Signals *)

(** X14.  [timeout_context] runs its body with the script's handler
    installed and the alarm armed; whether the body returns or raises, it
    then leaves the handler that was installed before in place and no
    alarm pending (an alarm that was pending on entry is not re-armed),
    keeps the flag as the body left it and passes the outcome of the body
    on.  An alarm that goes off inside sets the flag; one that goes off
    after the exit does not, unless the script's handler was already
    installed before. *)
Theorem timeout_context_restores :
  forall (A : Type) seconds (body : Signal.Process -> Signal.Process * Exc A)
         st,
    let inside :=
      {| Signal.sigalrm := Signal.TimeoutHandlerMethod;
         Signal.alarm_left := seconds;
         Signal.is_timeout := Signal.is_timeout st |} in
    let after := fst (Signal.timeout_context seconds body st) in
    Signal.timeout_context seconds body st =
    ({| Signal.sigalrm := Signal.sigalrm st;
        Signal.alarm_left := 0;
        Signal.is_timeout := Signal.is_timeout (fst (body inside)) |},
     snd (body inside)) /\
    Signal.is_timeout (Signal.alarm_fires inside) = true /\
    (Signal.sigalrm st <> Signal.TimeoutHandlerMethod ->
     Signal.is_timeout (Signal.alarm_fires after) = Signal.is_timeout after).
Proof.
  intros A seconds body st inside after. subst after inside.
  unfold Signal.timeout_context.
  cbn [Signal.signal_signal Signal.signal_alarm].
  destruct (body _) as [st3 r].
  cbn [fst snd Signal.sigalrm Signal.alarm_left Signal.is_timeout].
  split; [reflexivity|]. split; [reflexivity|].
  intros Hh. unfold Signal.alarm_fires. cbn [Signal.sigalrm].
  destruct (Signal.sigalrm st); try reflexivity. contradiction.
Qed.

(** ** The job list and the file names *)

(** X1.  The job list that [main] hands to [run_download_worker] names
    no source URL twice, and so no source URL occurs in two batches or
    twice in one batch. *)
Theorem job_list_has_unique_sources : forall fetch urls,
  let items := Dict.items (original_icons (process_playlists fetch urls)) in
  NoDup (map fst items) /\
  NoDup (map fst (concat (make_batches batch_size items))).
Proof.
  intros fetch urls items.
  assert (H : NoDup (map fst items))
    by apply (original_icons_keys_nodup fetch urls).
  split; [exact H|].
  rewrite make_batches_concat by (unfold batch_size; lia). exact H.
Qed.

Lemma split_parts_no_sep : forall sep s w,
  In w (split sep s) -> ~ In sep w.
Proof.
  intros sep. induction s as [|c s IH]; intros w H.
  - simpl in H. destruct H as [<- | []]. intros [].
  - cbn [split] in H. destruct (Ascii.eqb c sep) eqn:E.
    + destruct H as [<- | H]; [intros []|apply IH; exact H].
    + destruct (split sep s) as [|w0 ws] eqn:S.
      * destruct H as [<- | []]. intros [Hc | []]. subst c.
        rewrite Ascii.eqb_refl in E. discriminate.
      * destruct H as [<- | H].
        -- intros [Hc | Hin].
           ++ subst c. rewrite Ascii.eqb_refl in E. discriminate.
           ++ revert Hin. apply IH. left. reflexivity.
        -- apply IH. right. exact H.
Qed.

Lemma last_in : forall (B : Type) (l : list B) d,
  l <> [] -> In (last l d) l.
Proof.
  intros B. induction l as [|x l IH]; intros d H; [contradiction|].
  destruct l as [|y l]; [left; reflexivity|].
  right. apply IH. discriminate.
Qed.

(** X18.  The name under which a playlist is written never contains a
    slash, whatever the source URL is. *)
Theorem file_name_has_no_slash : forall url, ~ In slash (url_filename url).
Proof.
  intros url. unfold url_filename, basename.
  apply split_parts_no_sep with (s := url_path url).
  apply last_in. apply split_not_nil.
Qed.

(** ** Further concrete instances *)

Lemma jobs_only_from_epg_one_witness :
  In job_rect
     (Dict.items (original_icons
        (process_playlists (fetch_playlist world_quiet) PLAYLIST_URLS))) /\
  on_epg_one (fst job_rect).
Proof.
  assert (H : In job_rect
                (Dict.items (original_icons
                   (process_playlists (fetch_playlist world_quiet)
                                      PLAYLIST_URLS)))).
  { right. left. reflexivity. }
  split; [exact H|].
  exact (jobs_only_from_epg_one (fetch_playlist world_quiet) PLAYLIST_URLS
           job_rect H).
Defined.

Lemma square_job_destination_witness :
  Dict.get (original_icons (process_playlists fetch_first_404 PLAYLIST_URLS))
           (lit "http://epg.one/img/x.png") =
  Some (div ICONS_SQR_DIR (lit "x.png")).
Proof.
  assert (Hu : In (lit "http://epg.one/edem_epg_ico2.m3u8") PLAYLIST_URLS)
    by (right; left; reflexivity).
  assert (Hc : ~ (400 <= 200 < 600)) by lia.
  assert (Hl : In line_x [line_plain; line_x]) by (right; left; reflexivity).
  exact (@square_job_destination fetch_first_404 PLAYLIST_URLS
           (lit "http://epg.one/edem_epg_ico2.m3u8") 200
           [line_plain; line_x] line_x
           (lit "http://epg.one/img/x.png") (lit "x.png")
           Hu eq_refl Hc Hl eq_refl).
Defined.

Lemma rect_job_for_plain_path_witness :
  contains (lit "/img/") (lit "logos/a.png") = false /\
  exists scheme,
    is_scheme scheme /\
    lit "https://epg.one/img/logos/a.png" =
    scheme ++ lit "://epg.one/img/" ++ lit "logos/a.png" /\
    rect_url (lit "https://epg.one/img/logos/a.png") =
    scheme ++ lit "://epg.one/img2/" ++ lit "logos/a.png" /\
    Dict.get (icons (scan_line empty_scan line_https))
             (scheme ++ lit "://epg.one/img2/" ++ lit "logos/a.png") =
    Some (div ICONS_RECT_DIR (lit "logos/a.png")).
Proof.
  split; [reflexivity|].
  exact (@rect_job_for_plain_path empty_scan line_https
           (lit "https://epg.one/img/logos/a.png") (lit "logos/a.png")
           eq_refl eq_refl).
Defined.

Lemma absolute_path_leaves_icon_dirs_witness :
  Re.search line_absolute =
  Some (lit "http://epg.one/img//etc/x.png", lit "/etc/x.png") /\
  to_str (parse (lit "/etc/x.png")) = lit "/etc/x.png" /\
  Dict.get (icons (scan_line empty_scan line_absolute))
           (lit "http://epg.one/img//etc/x.png") =
  Some (parse (lit "/etc/x.png")).
Proof.
  split; [reflexivity|]. split; [reflexivity|].
  exact (proj1 (proj2
           (@absolute_path_leaves_icon_dirs empty_scan line_absolute
              (lit "http://epg.one/img//etc/x.png") (lit "etc/x.png")
              eq_refl))).
Defined.

Lemma clean_path_destination_witness :
  clean_path (lit "logos/a.png") = true /\
  to_str (div ICONS_SQR_DIR (lit "logos/a.png")) = lit "img/logos/a.png".
Proof.
  split; [reflexivity|].
  exact (proj1 (@clean_path_destination (lit "logos/a.png") eq_refl)).
Defined.

Lemma batch_stops_at_flag_witness :
  is_timeout_at world_slow_icon job_rect = true /\
  download_icon_batch world_slow_icon [job_sqr; job_rect] =
  download_icon_batch world_slow_icon [job_sqr].
Proof.
  split; [reflexivity|].
  exact (proj2 (batch_stops_at_flag world_slow_icon)
           [job_sqr] job_rect [] eq_refl).
Defined.

Lemma download_phase_raises_iff_witness :
  outcome (run_download_worker world_slow_icon icons_x) =
  Raised TimeoutError.
Proof.
  apply (proj1 (download_phase_raises_iff world_slow_icon icons_x)
               TimeoutError).
  split; [reflexivity|].
  exists [], []. split; [reflexivity|constructor].
Defined.

Lemma timeout_context_restores_witness :
  Signal.sigalrm process_alarm_pending <> Signal.TimeoutHandlerMethod /\
  Signal.timeout_context 300 body_alarm_then_raise process_alarm_pending =
  ({| Signal.sigalrm := Signal.Default; Signal.alarm_left := 0;
      Signal.is_timeout := true |}, Raised TimeoutError) /\
  Signal.is_timeout
    (Signal.alarm_fires
       (fst (Signal.timeout_context 300 body_alarm_then_raise
               process_alarm_pending))) = true.
Proof.
  assert (Hh : Signal.sigalrm process_alarm_pending
               <> Signal.TimeoutHandlerMethod) by discriminate.
  split; [exact Hh|]. split.
  - exact (proj1 (@timeout_context_restores unit 300 body_alarm_then_raise
                    process_alarm_pending)).
  - exact (proj2 (proj2 (@timeout_context_restores unit 300
                           body_alarm_then_raise process_alarm_pending))
             Hh).
Defined.

Lemma harvest_order_irrelevant_witness :
  Permutation [0; 1] [1; 0] /\
  harvest_loop (fun i => Returned (i + 1))
               [Yields 0 false; Yields 1 false] 0 =
  harvest_loop (fun i => Returned (i + 1))
               [Yields 1 false; Yields 0 false] 0.
Proof.
  assert (P : Permutation [0; 1] [1; 0]) by apply perm_swap.
  split; [exact P|].
  exact (@harvest_order_irrelevant (fun i => Returned (i + 1))
           [0; 1] [1; 0] 0 P).
Defined.

Lemma rescan_changes_nothing_witness :
  NoDup (Dict.keys (@nil (str * Path))) /\
  icons (scan_lines (icons (scan_lines [] [line_nested; line_nested2]))
                    [line_nested; line_nested2]) =
  icons (scan_lines [] [line_nested; line_nested2]).
Proof.
  assert (H : NoDup (Dict.keys (@nil (str * Path)))) by constructor.
  split; [exact H|].
  exact (@rescan_changes_nothing [] [line_nested; line_nested2] H).
Defined.

(** ** [main] with the local file system *)


Lemma fetch_fails_raises : forall o,
  fetch_fails o -> fetch_lines o = Raised RequestException.
Proof.
  intros o [-> | (c & ls & -> & Hc)]; simpl.
  - reflexivity.
  - rewrite (raise_for_status_bad Hc). reflexivity.
Qed.

Lemma process_playlist_io_failed : forall disk fetch st url,
  fetch_fails (fetch url) ->
  process_playlist_io disk fetch st url = (st, Returned tt).
Proof.
  intros disk fetch st url H. unfold process_playlist_io.
  rewrite (fetch_fails_raises H). reflexivity.
Qed.



Lemma process_playlists_io_all_fail : forall disk fetch urls st,
  (forall url, In url urls -> fetch_fails (fetch url)) ->
  process_playlists_io disk fetch urls st = (st, Returned tt).
Proof.
  intros disk fetch urls st H. revert st.
  induction urls as [|u urls IH]; intros st; cbn [process_playlists_io].
  - reflexivity.
  - rewrite process_playlist_io_failed by (apply H; left; reflexivity).
    apply IH. intros url Hin. apply H. right. exact Hin.
Qed.




(** X9.  When the identifier is set, the three directories can be created
    and every configured source fails, [main_full] returns normally: no
    playlist file is written, there is no job, and the download phase is
    not run. *)
Theorem all_sources_failing_returns : forall repo_name disk w,
  not_set repo_name = false ->
  mkdir disk OUTPUT_DIR = Returned tt ->
  mkdir disk (to_str ICONS_SQR_DIR) = Returned tt ->
  mkdir disk (to_str ICONS_RECT_DIR) = Returned tt ->
  (forall url, In url PLAYLIST_URLS -> fetch_fails (fetch_playlist w url)) ->
  main_full repo_name disk w =
  {| playlists :=
       {| original_icons := []; written := []; processed_files := [] |};
     download := None;
     exit := Returned tt |}.
Proof.
  intros r disk w Hr H1 H2 H3 Hf. unfold main_full, make_directories.
  rewrite Hr, H1, H2, H3. cbn [bind].
  rewrite process_playlists_io_all_fail by exact Hf. reflexivity.
Qed.



Lemma all_sources_failing_returns_witness :
  exit (main_full (Some repo) disk_ok world_all_404) = Returned tt /\
  written (playlists (main_full (Some repo) disk_ok world_all_404)) = [].
Proof.
  assert (Hf : forall url, In url PLAYLIST_URLS ->
                           fetch_fails (fetch_playlist world_all_404 url)).
  { intros url _. right. exists 404, []. split; [reflexivity|lia]. }
  rewrite (@all_sources_failing_returns (Some repo) disk_ok world_all_404
             eq_refl eq_refl eq_refl eq_refl Hf).
  split; reflexivity.
Defined.

